(** * Dissemination-metrics engine of gossip-host: pkg/analysis/utils.go

    A shallow embedding of the log-line parser, the message-log
    aggregator, the propagation-path enumeration and the metric
    calculator, with the properties of the engine stated over it.

    Conventions.
    - A Go integer of width w is a [Z]; every conversion and every
      arithmetic operation that can wrap is written with its reduction.
    - A Go [string] is a [string] of bytes ([ascii] is an 8-bit byte).
    - A Go map is a [gmap]; the order in which [range] visits a map is
      not fixed by the language, so every function that ranges over a map
      takes the order as an argument ([RangeOrder]).
    - A Go result [(T, error)] is a pair [T * option error], [None] being
      the nil error and, for a pointer, the nil pointer.
    - float32 and float64 are [spec_float] with the binary32 and binary64
      parameters of IEEE 754, rounding to nearest even.
    - Recursion that Go does not bound is bounded here by a depth budget;
      a run that exhausts every budget is a run that never returns. *)

From Stdlib Require Import ZArith Ascii String Floats.SpecFloat.
From stdpp Require Import base option list gmap strings sorting relations.

Local Open Scope Z_scope.

(** ** Machine integers *)

Module GoInt.

Definition MaxUint64 : Z := 2 ^ 64 - 1.
Definition MaxInt64 : Z := 2 ^ 63 - 1.
Definition MinInt64 : Z := - 2 ^ 63.

(** Conversion to [uint64] (and to [uint] on a 64-bit platform). *)
Definition uint64 (z : Z) : Z := z mod 2 ^ 64.

(** Conversion to [int64] (and to [int] on a 64-bit platform). *)
Definition int64 (z : Z) : Z := (z + 2 ^ 63) mod 2 ^ 64 - 2 ^ 63.

Definition is_int64 (z : Z) : Prop := MinInt64 <= z <= MaxInt64.

(** [len] of a slice or of a map: an [int]. *)
Definition len {A} (l : list A) : Z := Z.of_nat (length l).

(** A slice that Go can hold: its length is an [int]. *)
Definition go_slice {A} (l : list A) : Prop := len l <= MaxInt64.

End GoInt.
Import GoInt.

(** ** Floating point: binary32 and binary64 *)

Module F32.
Definition prec : Z := 24.
Definition emax : Z := 128.
(** Conversion of an integer to float32. *)
Definition of_Z (z : Z) : spec_float := binary_normalize prec emax z 0 false.
Definition div : spec_float -> spec_float -> spec_float := SFdiv prec emax.
Definition sub : spec_float -> spec_float -> spec_float := SFsub prec emax.
(** The constants [0.0] and [1.0]. *)
Definition zero : spec_float := S754_zero false.
Definition one : spec_float := S754_finite false 8388608 (-23).
Definition pos_inf : spec_float := S754_infinity false.
End F32.

Module F64.
Definition prec : Z := 53.
Definition emax : Z := 1024.
(** Conversion of an integer to float64. *)
Definition of_Z (z : Z) : spec_float := binary_normalize prec emax z 0 false.
Definition zero : spec_float := S754_zero false.

Definition signbit (x : spec_float) : bool :=
  match x with
  | S754_zero s | S754_infinity s | S754_finite s _ _ => s
  | S754_nan => false
  end.

Definition is_zero (x : spec_float) : bool :=
  match x with S754_zero _ => true | _ => false end.

(** [math.Max]: +Inf wins, then NaN, then the sign of zero, then [>]. *)
Definition math_Max (x y : spec_float) : spec_float :=
  match x, y with
  | S754_infinity false, _ | _, S754_infinity false => S754_infinity false
  | S754_nan, _ | _, S754_nan => S754_nan
  | _, _ =>
      if is_zero x && is_zero y then (if signbit x then y else x)
      else if SFltb y x then x else y
  end.

(** Conversion of a float64 to [uint]: the fraction is discarded.  Go
    leaves the result open when the value does not fit; the value is
    reduced here as the amd64 code does for the values below 2^64. *)
Definition to_uint (x : spec_float) : Z :=
  match x with
  | S754_finite s m e =>
      let v := if (0 <=? e) then Z.shiftl (Z.pos m) e
               else Z.shiftr (Z.pos m) (- e) in
      uint64 (if s then - v else v)
  | _ => 0
  end.
End F64.

(** ** Errors *)

Inductive strconv_err := ErrSyntax | ErrRange.

(** Modelled from the spec: [types.ErrImproperlyFormattedLogLine] is
    declared in the package [types], which is not among the sources; it
    is the one error kind of a malformed log line.  The other two
    constructors are the errors of the Go library that this file can
    produce: a [*strconv.NumError] and the value of [errors.New]. *)
Inductive error :=
| ErrImproperlyFormattedLogLine
| NumError (Func Num : string) (Err : strconv_err)
| errors_New (text : string).

#[global] Instance strconv_err_eq_dec : EqDecision strconv_err.
Proof. solve_decision. Defined.
#[global] Instance error_eq_dec : EqDecision error.
Proof. solve_decision. Defined.

(** ** The Go string library, as far as the parser uses it *)

Module strings.

(** [strings.Contains(s, substr)]. *)
Fixpoint Contains (s substr : string) : bool :=
  String.prefix substr s ||
  match s with
  | EmptyString => false
  | String _ s' => Contains s' substr
  end.

(** One left-to-right scan; [skip] counts the bytes of a match that
    are still to be passed over. *)
Fixpoint replace_from (skip : nat) (s old new : string) : string :=
  match s with
  | EmptyString => EmptyString
  | String c s' =>
      match skip with
      | S k => replace_from k s' old new
      | O =>
          if String.prefix old s
          then (new +:+ replace_from (String.length old - 1) s' old new)%string
          else String c (replace_from 0 s' old new)
      end
  end.

Fixpoint insert_between (s new : string) : string :=
  match s with
  | EmptyString => EmptyString
  | String c s' => String c (new +:+ insert_between s' new)%string
  end.

(** [strings.ReplaceAll(s, old, new)].  With an empty [old] and a
    different [new] Go inserts [new] around every UTF-8 sequence; that
    case is written on bytes and [parseLogLine] does not reach it, its
    [new] being the empty string. *)
Definition ReplaceAll (s old new : string) : string :=
  if decide (old = new) then s
  else if decide (old = EmptyString) then (new +:+ insert_between s new)%string
  else replace_from 0 s old new.

Fixpoint split_from (skip : nat) (cur s sep : string) : list string :=
  match s with
  | EmptyString => [cur]
  | String c s' =>
      match skip with
      | S k => split_from k cur s' sep
      | O =>
          if String.prefix sep s
          then cur :: split_from (String.length sep - 1) EmptyString s' sep
          else split_from 0 (cur +:+ String c EmptyString)%string s' sep
      end
  end.

Fixpoint explode (s : string) : list string :=
  match s with
  | EmptyString => []
  | String c s' => String c EmptyString :: explode s'
  end.

(** [strings.Split(s, sep)].  With an empty [sep] Go cuts after every
    UTF-8 sequence; that case is written on bytes and is not reached,
    the separator of [parseLogLine] being a comma. *)
Definition Split (s sep : string) : list string :=
  if decide (sep = EmptyString) then explode s
  else split_from 0 EmptyString s sep.

End strings.

(** ** The Go number parsers, as far as the parser uses them *)

Module strconv.

Definition fnParseUint : string := "ParseUint".
Definition fnParseInt : string := "ParseInt".
Definition fnAtoi : string := "Atoi".

Definition syntaxError (fn str : string) : error := NumError fn str ErrSyntax.
Definition rangeError (fn str : string) : error := NumError fn str ErrRange.

Definition byte_of (c : ascii) : Z := Z.of_N (N_of_ascii c).

(** The digit a byte stands for, letters included (they are refused
    afterwards, being no digit of base 10). *)
Definition digit_of (c : ascii) : option Z :=
  let b := byte_of c in
  if (48 <=? b) && (b <=? 57) then Some (b - 48)
  else
    let l := Z.lor b 32 in
    if (97 <=? l) && (l <=? 122) then Some (l - 97 + 10) else None.

Definition cutoff10 : Z := MaxUint64 / 10 + 1.

Fixpoint ParseUint_loop (s0 s : string) (n : Z) : Z * option error :=
  match s with
  | EmptyString => (n, None)
  | String c s' =>
      match digit_of c with
      | None => (0, Some (syntaxError fnParseUint s0))
      | Some d =>
          if 10 <=? d then (0, Some (syntaxError fnParseUint s0))
          else if cutoff10 <=? n then (MaxUint64, Some (rangeError fnParseUint s0))
          else
            let n' := uint64 (n * 10) in
            let n1 := uint64 (n' + d) in
            if (n1 <? n') || (MaxUint64 <? n1)
            then (MaxUint64, Some (rangeError fnParseUint s0))
            else ParseUint_loop s0 s' n1
      end
  end.

(** [strconv.ParseUint(s, 10, 64)]. *)
Definition ParseUint (s : string) : Z * option error :=
  if decide (s = EmptyString) then (0, Some (syntaxError fnParseUint s))
  else ParseUint_loop s s 0.

(** [strconv.ParseInt(s, 10, 64)]. *)
Definition ParseInt (s : string) : Z * option error :=
  match s with
  | EmptyString => (0, Some (syntaxError fnParseInt s))
  | String c rest =>
      let '(neg, digits) :=
        if decide (c = "+"%char) then (false, rest)
        else if decide (c = "-"%char) then (true, rest)
        else (false, s) in
      match ParseUint digits with
      | (_, Some (NumError _ _ ErrSyntax)) => (0, Some (syntaxError fnParseInt s))
      | (_, Some (NumError _ _ ErrRange)) =>
          if neg then (MinInt64, Some (rangeError fnParseInt s))
          else (MaxInt64, Some (rangeError fnParseInt s))
      | (_, Some e) => (0, Some e)
      | (un, None) =>
          let cutoff := 2 ^ 63 in
          if negb neg && (cutoff <=? un) then (MaxInt64, Some (rangeError fnParseInt s))
          else if neg && (cutoff <? un) then (MinInt64, Some (rangeError fnParseInt s))
          else
            let n := int64 un in
            (if neg then int64 (- n) else n, None)
      end
  end.

Fixpoint Atoi_loop (s0 s : string) (n : Z) : option Z :=
  match s with
  | EmptyString => Some n
  | String c s' =>
      let ch := (byte_of c - 48) mod 256 in
      if 9 <? ch then None else Atoi_loop s0 s' (int64 (int64 (n * 10) + ch))
  end.

(** [strconv.Atoi(s)] on a 64-bit platform: the short path for fewer
    than 19 bytes, [ParseInt] otherwise. *)
Definition Atoi (s : string) : Z * option error :=
  let sLen := Z.of_nat (String.length s) in
  if (0 <? sLen) && (sLen <? 19) then
    match s with
    | EmptyString => (0, Some (syntaxError fnAtoi s))
    | String c rest =>
        let signed := bool_decide (c = "-"%char) || bool_decide (c = "+"%char) in
        let digits := if signed then rest else s in
        if signed && (Z.of_nat (String.length digits) <? 1)
        then (0, Some (syntaxError fnAtoi s))
        else
          match Atoi_loop s digits 0 with
          | None => (0, Some (syntaxError fnAtoi s))
          | Some n => (if bool_decide (c = "-"%char) then int64 (- n) else n, None)
          end
    end
  else
    match ParseInt s with
    | (i64, Some (NumError _ num e)) => (int64 i64, Some (NumError fnAtoi num e))
    | r => r
    end.

End strconv.

(** ** Outcomes of a run *)

(** A call returns a value, panics (an index out of range), or goes
    deeper than the depth budget it was given. *)
Inductive exec (A : Type) : Type :=
| Done (a : A)
| Panic
| OutOfFuel.
Arguments Done {A} a.
Arguments Panic {A}.
Arguments OutOfFuel {A}.

#[global] Instance exec_ret : MRet exec := @Done.
#[global] Instance exec_bind : MBind exec := fun A B f m =>
  match m with
  | Done a => f a
  | Panic => Panic
  | OutOfFuel => OutOfFuel
  end.

(** [s[i]]: a panic when [i] is out of range. *)
Definition index {A} (s : list A) (i : nat) : exec A :=
  match s !! i with
  | Some x => Done x
  | None => Panic
  end.

(** ** Data model *)

(** Modelled from the spec: [types.MessageLog] is declared in the
    package [types], which is not among the sources; its fields are the
    six that [buildMessageLogFromStrings] fills, with the types of the
    values it stores in them. *)
Record MessageLog := {
  HostID : string;
  SenderID : string;
  MessageID : string;
  SeqNo : Z;      (* uint64 *)
  NanoTime : Z;   (* int64 *)
  Seq : Z         (* int *)
}.

(** Modelled from the spec: [types.Metric] is declared in the package
    [types]; its fields are the three that
    [buildMetricsFromSortedMessageLogs] assigns. *)
Record Metric := {
  TotalNanoTime : Z;                        (* uint64 *)
  RelativeMessageRedundancy : spec_float;   (* float32 *)
  LastDeliveryHop : Z                       (* uint *)
}.

#[global] Instance MessageLog_eq_dec : EqDecision MessageLog.
Proof. solve_decision. Defined.

(** ** Log line parser *)

Section Parser.

(** [types.LogLineLeader], the marker of a relevant line: a constant of
    the package [types], taken as a parameter. *)
Variable LogLineLeader : string.

Definition buildMessageLogFromStrings (data : list string)
  : exec (option MessageLog * option error) :=
  d3 ← index data 3;
  let '(seqNo, err) := strconv.ParseUint d3 in
  if err is Some _ then Done (None, Some ErrImproperlyFormattedLogLine) else
  d4 ← index data 4;
  let '(unixNano, err) := strconv.ParseInt d4 in
  if err is Some _ then Done (None, Some ErrImproperlyFormattedLogLine) else
  d5 ← index data 5;
  let '(seq, err) := strconv.Atoi d5 in
  if err is Some _ then Done (None, Some ErrImproperlyFormattedLogLine) else
  d0 ← index data 0;
  d1 ← index data 1;
  d2 ← index data 2;
  Done (Some {| HostID := d0; SenderID := d1; MessageID := d2;
                SeqNo := seqNo; NanoTime := unixNano; Seq := seq |},
        None).

Definition parseLogLine (logLine : string)
  : exec (option MessageLog * option error) :=
  if negb (strings.Contains logLine LogLineLeader) then Done (None, None)
  else
    let line := strings.ReplaceAll logLine LogLineLeader EmptyString in
    let data := strings.Split line "," in
    if negb (len data =? 6) then Done (None, Some ErrImproperlyFormattedLogLine)
    else buildMessageLogFromStrings data.

(** The loop of [buildMessageLogsFromScanner] over the lines that the
    scanner yields; the scanner's own error is not modelled. *)
Fixpoint buildMessageLogsFromLines (lines : list string) (messageLogs : list MessageLog)
  : exec (list MessageLog * option error) :=
  match lines with
  | [] => Done (messageLogs, None)
  | l :: lines' =>
      '(msgLog, err) ← parseLogLine l;
      if err is Some e then Done ([], Some e) else
      match msgLog with
      | None => buildMessageLogsFromLines lines' messageLogs
      | Some m => buildMessageLogsFromLines lines' (messageLogs ++ [m])
      end
  end.

End Parser.

(** ** Ranging over a map *)

(** The order in which [range] visits a map: Go fixes none, and changes
    it from one run to the next.  An order lists every entry once; it is
    a function of the map, so that within one run a map visited twice is
    visited twice in the same order. *)
Record RangeOrder := {
  range_of : forall A : Type, gmap string A -> list (string * A);
  range_of_perm : forall (A : Type) (m : gmap string A), range_of A m ≡ₚ map_to_list m
}.
Arguments range_of _ {A} _.

(** Two orders, for runs on concrete inputs. *)
Definition range_asc : RangeOrder :=
  {| range_of := fun A m => map_to_list m;
     range_of_perm := fun A m => reflexivity (map_to_list m) |}.

Definition range_desc : RangeOrder :=
  {| range_of := fun A m => reverse (map_to_list m);
     range_of_perm := fun A m => reverse_Permutation (map_to_list m) |}.

(** ** Message log aggregator *)

(** The body of the first loop of [groupMessageLogsByID]. *)
Definition group_step (m : gmap string (list MessageLog)) (messageLog : MessageLog)
  : gmap string (list MessageLog) :=
  <[MessageID messageLog := default [] (m !! MessageID messageLog) ++ [messageLog]]> m.

(** A [*types.MessageLog] of the input is taken to be non-nil and is
    modelled by the record it points to. *)
Definition groupMessageLogsByID (ord : RangeOrder) (messageLogs : list MessageLog)
  : list (list MessageLog) :=
  let messageLogMap := foldl group_step ∅ messageLogs in
  foldl (fun messageLogGroups kv => messageLogGroups ++ [kv.2])
        [] (range_of ord messageLogMap).

Definition unixNanoTimestamp (m1 m2 : MessageLog) : bool :=
  NanoTime m1 <? NanoTime m2.

Module sorter.

(** Modelled from the spec: the step of the sort below, which puts [x]
    before the first record that [by_] does not place before it. *)
Fixpoint insert (by_ : MessageLog -> MessageLog -> bool) (x : MessageLog)
    (s : list MessageLog) : list MessageLog :=
  match s with
  | [] => [x]
  | y :: s' => if by_ y x then y :: insert by_ x s' else x :: s
  end.

(** Modelled from the spec: [sorter.By(less).Sort(s)] belongs to the
    package [sorter], which is not among the sources.  The spec says
    that each group is sorted ascending by [nanoTime]; this is an
    insertion sort by [less], which keeps records that [less] does not
    separate in the order they had. *)
Definition Sort (by_ : MessageLog -> MessageLog -> bool) (s : list MessageLog)
  : list MessageLog :=
  foldr (insert by_) [] s.

End sorter.

(** The groups are sorted in place; the sorted groups are returned here. *)
Definition sortMessageLogs (messageLogsGroups : list (list MessageLog))
  : list (list MessageLog) :=
  sorter.Sort unixNanoTimestamp <$> messageLogsGroups.

(** ** Metrics calculator *)

Definition calcTotalNanoTime (sortedMessageLogs : list MessageLog) : exec Z :=
  last ← index sortedMessageLogs (length sortedMessageLogs - 1);
  first ← index sortedMessageLogs 0;
  Done (uint64 (int64 (NanoTime last - NanoTime first))).

(** The body of the loop of [countUniqueHosts]. *)
Definition host_step (m : gset string) (msg : MessageLog) : gset string :=
  {[SenderID msg]} ∪ ({[HostID msg]} ∪ m).

Definition countUniqueHosts (sortedMessageLogs : list MessageLog) : Z :=
  let m := foldl host_step ∅ sortedMessageLogs in
  uint64 (Z.of_nat (size m)).

Definition calcRMR (sortedMessageLogs : list MessageLog) : spec_float * option error :=
  let uniqueHosts := countUniqueHosts sortedMessageLogs in
  if uniqueHosts =? 0
  then (F32.zero, Some (errors_New "cannot calculate RMR with one host"))
  else (F32.sub (F32.div (F32.of_Z (len sortedMessageLogs))
                         (F32.of_Z (uint64 (uniqueHosts - 1))))
                F32.one,
        None).

(** ** Propagation graph builder *)

Definition prependString (s : string) (arr : list string) : list string :=
  [s] ++ arr.

(** The body of the first loop of [calcLastDeliveryHop]. *)
Definition edge_step (m : gmap string (gmap string MessageLog)) (msg : MessageLog)
  : gmap string (gmap string MessageLog) :=
  let m1 := if m !! SenderID msg is Some _ then m
            else <[SenderID msg := ∅]> m in
  alter (fun inner => <[HostID msg := msg]> inner) (SenderID msg) m1.

(** The map senderID => recipientID => record built by the first loop of
    [calcLastDeliveryHop]. *)
Definition buildEdges (sortedMessageLogs : list MessageLog)
  : gmap string (gmap string MessageLog) :=
  foldl edge_step ∅ sortedMessageLogs.

(** The body of the loop of [buildPathsForSenderID] over the recipients,
    with the recursive call as [rec_]. *)
Definition paths_step (rec_ : string -> exec (list (list string))) (senderID : string)
    (acc : exec (list (list string))) (kv : string * MessageLog)
  : exec (list (list string)) :=
  ret ← acc;
  paths ← rec_ kv.1;
  Done (foldl (fun ret path => ret ++ [prependString senderID path]) ret paths).

(** [fuel] bounds the depth of the recursion, which Go does not. *)
Fixpoint buildPathsForSenderID (ord : RangeOrder) (fuel : nat) (senderID : string)
    (m : gmap string (gmap string MessageLog)) : exec (list (list string)) :=
  match fuel with
  | O => OutOfFuel
  | S fuel' =>
      foldl (paths_step (fun recipient => buildPathsForSenderID ord fuel' recipient m)
                        senderID)
            (Done []) (range_of ord (default ∅ (m !! senderID)))
  end.

Definition calcLastDeliveryHop (ord : RangeOrder) (fuel : nat)
    (sortedMessageLogs : list MessageLog) : exec Z :=
  let m := buildEdges sortedMessageLogs in
  first ← index sortedMessageLogs 0;
  let firstGossiperID := SenderID first in
  paths ← buildPathsForSenderID ord fuel firstGossiperID m;
  let lastDeliveryHop :=
    foldl (fun acc path => F64.math_Max acc (F64.of_Z (len path))) F64.zero paths in
  Done (F64.to_uint lastDeliveryHop).

(** ** Pipeline *)

Definition buildMetricsFromSortedMessageLogs (ord : RangeOrder) (fuel : nat)
    (sortedMessageLogs : list MessageLog) : exec (option Metric * option error) :=
  if len sortedMessageLogs =? 0
  then Done (None, Some (errors_New "no message logs"))
  else
    total ← calcTotalNanoTime sortedMessageLogs;
    let '(rmr, err) := calcRMR sortedMessageLogs in
    if err is Some e then Done (None, Some e) else
    hop ← calcLastDeliveryHop ord fuel sortedMessageLogs;
    Done (Some {| TotalNanoTime := total;
                  RelativeMessageRedundancy := rmr;
                  LastDeliveryHop := hop |},
          None).

(** The loop over the groups; a [*types.Metric] may be nil, so the slice
    holds options. *)
Fixpoint buildMetricsLoop (ord : RangeOrder) (fuel : nat)
    (messageLogsGroups : list (list MessageLog)) (metrics : list (option Metric))
  : exec (list (option Metric) * option error) :=
  match messageLogsGroups with
  | [] => Done (metrics, None)
  | sortedMessageLogs :: rest =>
      '(metric, err) ← buildMetricsFromSortedMessageLogs ord fuel sortedMessageLogs;
      if err is Some e then Done ([], Some e)
      else buildMetricsLoop ord fuel rest (metrics ++ [metric])
  end.

Definition buildMetricsFromSortedMessageLogsGroups (ord : RangeOrder) (fuel : nat)
    (messageLogsGroups : list (list MessageLog))
  : exec (list (option Metric) * option error) :=
  buildMetricsLoop ord fuel messageLogsGroups [].

Definition buildMetricsFromMessageLogs (ord : RangeOrder) (fuel : nat)
    (messageLogs : list MessageLog) : exec (list (option Metric) * option error) :=
  let messageLogsGroups := groupMessageLogsByID ord messageLogs in
  let messageLogsGroups := sortMessageLogs messageLogsGroups in
  buildMetricsFromSortedMessageLogsGroups ord fuel messageLogsGroups.

(** The [i]-th comma-separated field of a line, empty when there is none. *)
Definition field (data : list string) (i : nat) : string :=
  default EmptyString (data !! i).

(** The records of one message. *)
Definition same_id (id : string) (r : MessageLog) : Prop := MessageID r = id.

#[global] Instance same_id_dec id r : Decision (same_id id r).
Proof. unfold same_id. apply _. Defined.

(** Ascending order of the timestamps. *)
Definition nano_le (m1 m2 : MessageLog) : Prop := NanoTime m1 <= NanoTime m2.

(** [ids] lists, each once, the identifiers that occur in the group as a
    hostID or as a senderID: its length is the number of unique hosts. *)
Definition host_ids (logs : list MessageLog) (ids : list string) : Prop :=
  NoDup ids /\
  forall x, x ∈ ids <-> exists r, r ∈ logs /\ (HostID r = x \/ SenderID r = x).

(** The senderID => recipientID relation of an edge map. *)
Definition edge (m : gmap string (gmap string MessageLog)) (a b : string) : Prop :=
  exists inner, m !! a = Some inner /\ is_Some (inner !! b).

(** The forwarding relation of a group: some record says that [a] sent
    the message to [b]. *)
Definition forwards (logs : list MessageLog) (a b : string) : Prop :=
  exists r, r ∈ logs /\ SenderID r = a /\ HostID r = b.

(** No host is reached from itself along one or more steps. *)
Definition acyclic (R : relation string) : Prop := forall x, ~ tc R x x.

(** The metric that a call for one group hands to the loop. *)
Definition metric_of (e : exec (option Metric * option error)) : option Metric :=
  match e with
  | Done (metric, _) => metric
  | _ => None
  end.

(** ** Inputs of the concrete runs *)

Module Run.

Definition rec (host sender id : string) (t : Z) : MessageLog :=
  {| HostID := host; SenderID := sender; MessageID := id;
     SeqNo := 0; NanoTime := t; Seq := 0 |}.

(** One message handed on along A, B, C, D. *)
Definition chain : list MessageLog :=
  [rec "B" "A" "m1" 100; rec "C" "B" "m1" 200; rec "D" "C" "m1" 300].

(** One host that is its own sender. *)
Definition alone : list MessageLog := [rec "h1" "h1" "m1" 500].

(** Two hosts that send to each other. *)
Definition loop : list MessageLog :=
  [rec "B" "A" "m1" 100; rec "A" "B" "m1" 200].

(** A rank that falls along the chain. *)
Definition rank (s : string) : nat :=
  if decide (s = "A"%string) then 3
  else if decide (s = "B"%string) then 2
  else if decide (s = "C"%string) then 1
  else 0.

(** Four records among three hosts, out of order. *)
Definition four : list MessageLog :=
  [rec "h3" "h2" "m1" 2000; rec "h2" "h1" "m1" 1000;
   rec "h3" "h1" "m1" 1500; rec "h2" "h3" "m1" 2500].

(** Two messages, their records interleaved. *)
Definition two : list MessageLog :=
  [rec "h2" "h1" "m1" 1000; rec "h3" "h2" "m2" 10;
   rec "h3" "h2" "m1" 3000; rec "h4" "h3" "m2" 40].

End Run.

(** * The code around the engine *)

(** ** Reading the log *)

(** A [*bufio.Scanner] as the loop of [buildMessageLogsFromScanner] sees
    it: the lines that [Scan] yields before it stops, and the error that
    [Err] returns afterwards, nil at the end of the input. *)
Record Scanner := {
  tokens : list string;
  scan_err : option error
}.

Definition buildMessageLogsFromScanner (LogLineLeader : string) (scanner : Scanner)
  : exec (list MessageLog * option error) :=
  '(messageLogs, err) ← buildMessageLogsFromLines LogLineLeader (tokens scanner) [];
  if err is Some e then Done ([], Some e) else
  if scan_err scanner is Some e then Done ([], Some e) else
  Done (messageLogs, None).


(** The record that a line gives, if it gives one. *)
Definition parsed (LogLineLeader logLine : string) : option MessageLog :=
  match parseLogLine LogLineLeader logLine with
  | Done (msgLog, None) => msgLog
  | _ => None
  end.

(** The lines on which the parser fails. *)
Definition malformed (LogLineLeader logLine : string) : bool :=
  match parseLogLine LogLineLeader logLine with
  | Done (_, Some _) => true
  | _ => false
  end.


(** ** Numbers in decimal *)

(** What a field writes, read as a number: digits only, and an optional
    sign before the digits. *)
Definition is_digit (c : ascii) : bool :=
  (48 <=? strconv.byte_of c) && (strconv.byte_of c <=? 57).

Fixpoint all_digits (s : string) : bool :=
  match s with
  | EmptyString => true
  | String c s' => is_digit c && all_digits s'
  end.

Fixpoint decimal_from (n : Z) (s : string) : Z :=
  match s with
  | EmptyString => n
  | String c s' => decimal_from (10 * n + (strconv.byte_of c - 48)) s'
  end.

Definition unsigned_decimal (s : string) : option Z :=
  match s with
  | EmptyString => None
  | _ => if all_digits s then Some (decimal_from 0 s) else None
  end.

Definition signed_decimal (s : string) : option Z :=
  match s with
  | EmptyString => None
  | String c rest =>
      if bool_decide (c = "+"%char) then unsigned_decimal rest
      else if bool_decide (c = "-"%char) then Z.opp <$> unsigned_decimal rest
      else unsigned_decimal s
  end.

(** ** More of the Go library: slices of strings, case and extensions *)

Module gostr.

(** [s[n:]] and [s[:n]]. *)
Fixpoint drop (n : nat) (s : string) : string :=
  match n, s with
  | O, _ => s
  | S n', String _ s' => drop n' s'
  | S _, EmptyString => EmptyString
  end.

Fixpoint take (n : nat) (s : string) : string :=
  match n, s with
  | O, _ => EmptyString
  | S n', String c s' => String c (take n' s')
  | S _, EmptyString => EmptyString
  end.

(** [strings.HasSuffix(s, suffix)]. *)
Definition HasSuffix (s suffix : string) : bool :=
  (String.length suffix <=? String.length s)%nat
  && bool_decide (drop (String.length s - String.length suffix) s = suffix).

(** [strings.TrimSuffix(s, suffix)]. *)
Definition TrimSuffix (s suffix : string) : string :=
  if HasSuffix s suffix then take (String.length s - String.length suffix) s else s.

(** The loop of [filepath.Ext], with [i] one more than the index that Go
    looks at; the path separator is that of Unix. *)
Fixpoint Ext_loop (path : string) (i : nat) : string :=
  match i with
  | O => EmptyString
  | S j =>
      match String.get j path with
      | Some c =>
          if bool_decide (c = "/"%char) then EmptyString
          else if bool_decide (c = "."%char) then drop j path
          else Ext_loop path j
      | None => EmptyString
      end
  end.

(** [filepath.Ext(path)]. *)
Definition Ext (path : string) : string := Ext_loop path (String.length path).

(** The byte [c] occurs in [s]. *)
Fixpoint has_byte (c : ascii) (s : string) : bool :=
  match s with
  | EmptyString => false
  | String a s' => bool_decide (a = c) || has_byte c s'
  end.

(** No byte of the string is outside ASCII ([utf8.RuneSelf] is 128). *)
Fixpoint isASCII (s : string) : bool :=
  match s with
  | EmptyString => true
  | String c s' => (strconv.byte_of c <? 128) && isASCII s'
  end.

Definition lower_byte (c : ascii) : ascii :=
  let b := strconv.byte_of c in
  if (65 <=? b) && (b <=? 90) then ascii_of_N (Z.to_N (b + 32)) else c.

Fixpoint lower_bytes (s : string) : string :=
  match s with
  | EmptyString => EmptyString
  | String c s' => String (lower_byte c) (lower_bytes s')
  end.

(** [strings.ToLower(s)]: on an ASCII string the letters A to Z are
    replaced byte by byte; on any other string Go maps
    [unicode.ToLower] over the runes, which is taken here as the
    function [unicode_lower]. *)
Definition ToLower (unicode_lower : string -> string) (s : string) : string :=
  if isASCII s then lower_bytes s else unicode_lower s.

(** The table [asciiSpace] of the package [strings]: tab, line feed,
    vertical tab, form feed, carriage return and space. *)
Definition asciiSpace (c : ascii) : bool :=
  let b := strconv.byte_of c in
  (b =? 9) || (b =? 10) || (b =? 11) || (b =? 12) || (b =? 13) || (b =? 32).

(** The first loop of [strings.TrimSpace]: [inr] is [s[start:]] at the
    first byte that is no space, [inl] is [s[start:]] at a byte outside
    ASCII, where Go hands over to [TrimFunc]. *)
Fixpoint trim_start (s : string) : string + string :=
  match s with
  | EmptyString => inr EmptyString
  | String c s' =>
      if 128 <=? strconv.byte_of c then inl s
      else if asciiSpace c then trim_start s'
      else inr s
  end.

(** The second loop, on [t = s[start:]]; [trim_right] is
    [TrimRightFunc(_, unicode.IsSpace)]. *)
Fixpoint trim_stop (trim_right : string -> string) (t : string) (stop : nat) : string :=
  match stop with
  | O => take stop t
  | S j =>
      match String.get j t with
      | Some c =>
          if 128 <=? strconv.byte_of c then trim_right (take stop t)
          else if asciiSpace c then trim_stop trim_right t j
          else take stop t
      | None => take stop t
      end
  end.

(** [strings.TrimSpace(s)]; [trim_both] and [trim_right] are
    [TrimFunc(_, unicode.IsSpace)] and [TrimRightFunc(_, unicode.IsSpace)],
    which Go calls when it meets a byte outside ASCII. *)
Definition TrimSpace (trim_both trim_right : string -> string) (s : string) : string :=
  match trim_start s with
  | inl t => trim_both t
  | inr t => trim_stop trim_right t (String.length t)
  end.

(** How often the byte [c] occurs in [s]; the first and the last byte. *)
Fixpoint count_byte (c : ascii) (s : string) : nat :=
  match s with
  | EmptyString => O
  | String a s' => ((if bool_decide (a = c) then 1 else 0) + count_byte c s')%nat
  end.

Definition first_byte (s : string) : option ascii :=
  match s with
  | EmptyString => None
  | String c _ => Some c
  end.

Fixpoint last_byte (s : string) : option ascii :=
  match s with
  | EmptyString => None
  | String c EmptyString => Some c
  | String _ s' => last_byte s'
  end.

End gostr.

(** ** Configuration (package config) *)

Section Config.

(** [lcrypto.PrivKey], an interface of libp2p. *)
Variable PrivKey : Type.

(** Modelled from the spec: the types [Config] and [Host] are declared
    in the package [config] outside the sources; the fields are those
    that the functions of the sources read and assign.  A nil [Priv] is
    [None]; a nil slice is the empty list. *)
Record Host := {
  PrivPEM : string;
  Priv : option PrivKey;
  Listens : list string;
  Peers : list string;
  Transports : list string;
  Muxers : list (list string);
  Security : string
}.

Record Config := { Host_ : Host }.

Definition set_Priv (v : option PrivKey) (conf : Config) : Config :=
  let h := Host_ conf in
  {| Host_ := {| PrivPEM := PrivPEM h; Priv := v; Listens := Listens h;
                 Peers := Peers h; Transports := Transports h;
                 Muxers := Muxers h; Security := Security h |} |}.

Definition set_Listens (v : list string) (conf : Config) : Config :=
  let h := Host_ conf in
  {| Host_ := {| PrivPEM := PrivPEM h; Priv := Priv h; Listens := v;
                 Peers := Peers h; Transports := Transports h;
                 Muxers := Muxers h; Security := Security h |} |}.

Definition set_Peers (v : list string) (conf : Config) : Config :=
  let h := Host_ conf in
  {| Host_ := {| PrivPEM := PrivPEM h; Priv := Priv h; Listens := Listens h;
                 Peers := v; Transports := Transports h;
                 Muxers := Muxers h; Security := Security h |} |}.

Definition set_Transports (v : list string) (conf : Config) : Config :=
  let h := Host_ conf in
  {| Host_ := {| PrivPEM := PrivPEM h; Priv := Priv h; Listens := Listens h;
                 Peers := Peers h; Transports := v;
                 Muxers := Muxers h; Security := Security h |} |}.

Definition set_Muxers (v : list (list string)) (conf : Config) : Config :=
  let h := Host_ conf in
  {| Host_ := {| PrivPEM := PrivPEM h; Priv := Priv h; Listens := Listens h;
                 Peers := Peers h; Transports := Transports h;
                 Muxers := v; Security := Security h |} |}.

Definition set_Security (v : string) (conf : Config) : Config :=
  let h := Host_ conf in
  {| Host_ := {| PrivPEM := PrivPEM h; Priv := Priv h; Listens := Listens h;
                 Peers := Peers h; Transports := Transports h;
                 Muxers := Muxers h; Security := v |} |}.

(** [conf] and [defaults] are taken to be non-nil; the configuration is
    changed in place, and the changed configuration is returned here. *)
Definition mergeDefaults (conf defaults : Config) : Config :=
  let conf := if Priv (Host_ conf) is None
              then set_Priv (Priv (Host_ defaults)) conf else conf in
  let conf := if len (Listens (Host_ conf)) =? 0
              then set_Listens (Listens (Host_ defaults)) conf else conf in
  let conf := if len (Peers (Host_ conf)) =? 0
              then set_Peers (Peers (Host_ defaults)) conf else conf in
  let conf := if len (Transports (Host_ conf)) =? 0
              then set_Transports (Transports (Host_ defaults)) conf else conf in
  let conf := if len (Muxers (Host_ conf)) =? 0
              then set_Muxers (Muxers (Host_ defaults)) conf else conf in
  let conf := if bool_decide (Security (Host_ conf) = EmptyString)
              then set_Security (Security (Host_ defaults)) conf else conf in
  conf.

(** [TrimFunc(_, unicode.IsSpace)] and [TrimRightFunc(_, unicode.IsSpace)]
    of the package [strings]. *)
Variable trim_both trim_right : string -> string.

(** The list is trimmed in place, element by element. *)
Definition parseListens (conf : Config) (listens : string) : Config :=
  if negb (bool_decide (listens = EmptyString)) then
    let listensArr := strings.Split listens "," in
    let listensArr := gostr.TrimSpace trim_both trim_right <$> listensArr in
    set_Listens listensArr conf
  else conf.

Definition parsePeers (conf : Config) (peers : string) : Config :=
  if negb (bool_decide (peers = EmptyString)) then
    let peersArr := strings.Split peers "," in
    let peersArr := gostr.TrimSpace trim_both trim_right <$> peersArr in
    set_Peers peersArr conf
  else conf.

(** A configuration in which [mergeDefaults] finds nothing to fill. *)
Definition complete (conf : Config) : Prop :=
  Priv (Host_ conf) <> None /\ Listens (Host_ conf) <> []
  /\ Peers (Host_ conf) <> [] /\ Transports (Host_ conf) <> []
  /\ Muxers (Host_ conf) <> [] /\ Security (Host_ conf) <> EmptyString.

End Config.

Arguments PrivPEM {PrivKey} _.
Arguments Priv {PrivKey} _.
Arguments Listens {PrivKey} _.
Arguments Peers {PrivKey} _.
Arguments Transports {PrivKey} _.
Arguments Muxers {PrivKey} _.
Arguments Security {PrivKey} _.
Arguments Host_ {PrivKey} _.
Arguments mergeDefaults {PrivKey} _ _.
Arguments parseListens {PrivKey} _ _ _ _.
Arguments parsePeers {PrivKey} _ _ _ _.
Arguments complete {PrivKey} _.

(** The first of two values that is set. *)
Definition or_else_list {A} (l d : list A) : list A :=
  match l with [] => d | _ => l end.

Definition or_else_string (s d : string) : string :=
  if bool_decide (s = EmptyString) then d else s.

Definition or_else_key {PrivKey} (p d : option PrivKey) : option PrivKey :=
  match p with None => d | _ => p end.

(** An address as [parseListens] and [parsePeers] leave it: no comma,
    no space at either end. *)
Definition trimmed (e : string) : Prop :=
  gostr.has_byte "," e = false
  /\ from_option gostr.asciiSpace false (gostr.first_byte e) = false
  /\ from_option gostr.asciiSpace false (gostr.last_byte e) = false.

Definition trimExtension (filename : string) : string :=
  gostr.TrimSuffix filename (gostr.Ext filename).

(** ** Host options (package host) *)

(** The option values of go-libp2p that the parsers hand back, and the
    way it chains them: values of a library, taken as parameters. *)
Record Libp2p := {
  lconfig_Option : Type;
  Transport_tcp : lconfig_Option;       (* libp2p.Transport(tcp.NewTCPTransport) *)
  Transport_ws : lconfig_Option;        (* libp2p.Transport(ws.New) *)
  Transport_quic : lconfig_Option;      (* libp2p.Transport(quic.NewTransport) *)
  NoTransports : lconfig_Option;        (* libp2p.NoTransports *)
  DefaultTransports : lconfig_Option;   (* libp2p.DefaultTransports *)
  Muxer_yamux : lconfig_Option;         (* libp2p.Muxer("/yamux/1.0.0", ...) *)
  Muxer_mplex : lconfig_Option;         (* libp2p.Muxer("/mplex/6.7.0", ...) *)
  Security_secio : lconfig_Option;      (* libp2p.Security(secio.ID, secio.New) *)
  NoSecurity : lconfig_Option;          (* libp2p.NoSecurity *)
  ChainOptions : list lconfig_Option -> lconfig_Option
}.

(** The errors of the package [host], declared outside the sources:
    taken as parameters. *)
Record HostErrors := {
  ErrImproperTransportOption : error;
  ErrUnknownTransportOption : error;
  ErrImproperMuxerOption : error;
  ErrUnknownMuxerOption : error;
  ErrUnknownSecurityOption : error
}.

Section HostOptions.

Variable L : Libp2p.
Variable E : HostErrors.

(** [unicode.ToLower] mapped over a string that is not ASCII. *)
Variable unicode_lower : string -> string.

Fixpoint parseTransportOptions_loop (opts rest : list string)
    (lOpts : list (lconfig_Option L)) : option (lconfig_Option L) * option error :=
  match rest with
  | [] => (Some (ChainOptions L lOpts), None)
  | opt :: rest' =>
      let o := gostr.ToLower unicode_lower opt in
      if bool_decide (o = "tcp"%string)
      then parseTransportOptions_loop opts rest' (lOpts ++ [Transport_tcp L])
      else if bool_decide (o = "ws"%string)
      then parseTransportOptions_loop opts rest' (lOpts ++ [Transport_ws L])
      else if bool_decide (o = "quic"%string)
      then parseTransportOptions_loop opts rest' (lOpts ++ [Transport_quic L])
      else if bool_decide (o = "none"%string)
      then (if 1 <? len opts
            then (None, Some (ErrImproperTransportOption E))
            else (Some (NoTransports L), None))
      else if bool_decide (o = "default"%string)
      then parseTransportOptions_loop opts rest' (lOpts ++ [DefaultTransports L])
      else (None, Some (ErrUnknownTransportOption E))
  end.

Definition parseTransportOptions (opts : list string)
  : option (lconfig_Option L) * option error :=
  parseTransportOptions_loop opts opts [].

Fixpoint parseMuxerOptions_loop (rest : list (list string))
    (lOpts : list (lconfig_Option L))
  : exec (option (lconfig_Option L) * option error) :=
  match rest with
  | [] => Done (Some (ChainOptions L lOpts), None)
  | opt :: rest' =>
      if negb (len opt =? 2) then Done (None, Some (ErrImproperMuxerOption E))
      else
        name ← index opt 0;
        let o := gostr.ToLower unicode_lower name in
        if bool_decide (o = "yamux"%string)
        then parseMuxerOptions_loop rest' (lOpts ++ [Muxer_yamux L])
        else if bool_decide (o = "mplex"%string)
        then parseMuxerOptions_loop rest' (lOpts ++ [Muxer_mplex L])
        else Done (None, Some (ErrUnknownMuxerOption E))
  end.

Definition parseMuxerOptions (opts : list (list string))
  : exec (option (lconfig_Option L) * option error) :=
  parseMuxerOptions_loop opts [].

Definition parseSecurityOptions (opt : string)
  : option (lconfig_Option L) * option error :=
  let o := gostr.ToLower unicode_lower opt in
  if bool_decide (o = "secio"%string) then (Some (Security_secio L), None)
  else if bool_decide (o = "default"%string) then (Some (Security_secio L), None)
  else if bool_decide (o = "none"%string) then (Some (NoSecurity L), None)
  else (None, Some (ErrUnknownSecurityOption E)).


(** The muxer that a lower-case name stands for. *)
Definition muxer_of (o : string) : option (lconfig_Option L) :=
  if bool_decide (o = "yamux"%string) then Some (Muxer_yamux L)
  else if bool_decide (o = "mplex"%string) then Some (Muxer_mplex L)
  else None.

End HostOptions.

(** ** Inputs of the concrete runs of the code around the engine *)

Module Sample.

(** A well-formed line and the record it holds. *)
Definition line : string := "MARKERh2,h1,m1,7,1000,-3".

Definition record : MessageLog :=
  {| HostID := "h2"; SenderID := "h1"; MessageID := "m1";
     SeqNo := 7; NanoTime := 1000; Seq := -3 |}.

(** A configuration with nothing set, and a list of addresses. *)
Definition conf : Config unit :=
  {| Host_ := {| PrivPEM := EmptyString; Priv := None; Listens := []; Peers := [];
                 Transports := []; Muxers := []; Security := EmptyString |} |}.

Definition listens : string := " /ip4/0.0.0.0/tcp/3000 ,/ip4/1 , ".

(** Option values and errors for concrete runs: an option is the list
    of the names it stands for, and chaining concatenates. *)
Definition libp2p : Libp2p :=
  {| lconfig_Option := list string;
     Transport_tcp := ["tcp"%string]; Transport_ws := ["ws"%string];
     Transport_quic := ["quic"%string]; NoTransports := ["no transports"%string];
     DefaultTransports := ["default transports"%string];
     Muxer_yamux := ["yamux"%string]; Muxer_mplex := ["mplex"%string];
     Security_secio := ["secio"%string]; NoSecurity := ["no security"%string];
     ChainOptions := fun opts => concat opts |}.

Definition errors : HostErrors :=
  {| ErrImproperTransportOption := errors_New "improper transport option";
     ErrUnknownTransportOption := errors_New "unknown transport option";
     ErrImproperMuxerOption := errors_New "improper muxer option";
     ErrUnknownMuxerOption := errors_New "unknown muxer option";
     ErrUnknownSecurityOption := errors_New "unknown security option" |}.

(** A group whose records are not in the order of their timestamps. *)
Definition unsorted : list MessageLog :=
  [Run.rec "h2" "h1" "m1" 1000; Run.rec "h3" "h2" "m1" 400].

End Sample.

(** * Properties *)

(** ** Integers *)

Lemma uint64_id z : 0 <= z <= MaxUint64 -> uint64 z = z.
Proof. unfold uint64, MaxUint64. intros ?. apply Z.mod_small. lia. Qed.

Lemma uint64_int64 z : uint64 (int64 z) = uint64 z.
Proof.
  unfold uint64, int64.
  rewrite Zminus_mod, Zmod_mod, <- Zminus_mod.
  f_equal. lia.
Qed.

(** ** Strings *)

Lemma append_cons (a : ascii) (s r : string) :
  (String a s +:+ r)%string = String a (s +:+ r)%string.
Proof. reflexivity. Qed.

Lemma prefix_spec (p s : string) :
  String.prefix p s = true <-> exists r, s = (p +:+ r)%string.
Proof.
  revert s. induction p as [|a p IH]; intros [|b s]; simpl.
  - split; [intros _; by exists EmptyString | done].
  - split; [intros _; by exists (String b s) | done].
  - split; [done | intros [r Hr]; discriminate].
  - destruct (Ascii.ascii_dec a b) as [->|Hne].
    + rewrite IH. split; intros [r Hr]; exists r;
        rewrite append_cons in *; congruence.
    + split; [done | intros [r Hr]; rewrite append_cons in Hr; congruence].
Qed.

(** [strings.Contains] decides whether [substr] occurs in [s]. *)
Lemma Contains_spec (s substr : string) :
  strings.Contains s substr = true
  <-> exists pre post, s = (pre +:+ substr +:+ post)%string.
Proof.
  induction s as [|c s IH].
  - change (strings.Contains EmptyString substr)
      with (String.prefix substr EmptyString || false).
    rewrite orb_false_r, prefix_spec. split.
    + intros [r ->]. by exists EmptyString, r.
    + intros [[|a pre] [post H]]; [by exists post | discriminate].
  - change (strings.Contains (String c s) substr)
      with (String.prefix substr (String c s) || strings.Contains s substr).
    rewrite orb_true_iff, prefix_spec, IH. split.
    + intros [[r ->] | (pre & post & ->)].
      * by exists EmptyString, r.
      * by exists (String c pre), post.
    + intros [[|a pre] [post H]].
      * left. by exists post.
      * right. rewrite append_cons in H. injection H as -> ->. by exists pre, post.
Qed.

(** ** The library functions on sample inputs *)

Example Split_commas :
  strings.Split "a,b,,c" "," = ["a"; "b"; EmptyString; "c"]%string
  /\ strings.Split EmptyString "," = [EmptyString].
Proof. split; reflexivity. Qed.

Example ReplaceAll_leftmost :
  strings.ReplaceAll "oink oink oink" "oink" "moo" = "moo moo moo"%string
  /\ strings.ReplaceAll "aaa" "aa" "b" = "ba"%string.
Proof. split; reflexivity. Qed.

Example ParseUint_bounds :
  strconv.ParseUint "18446744073709551615" = (MaxUint64, None)
  /\ strconv.ParseUint "18446744073709551616"
     = (MaxUint64, Some (NumError "ParseUint" "18446744073709551616" ErrRange))
  /\ strconv.ParseUint "-1" = (0, Some (NumError "ParseUint" "-1" ErrSyntax)).
Proof. split_and!; vm_compute; reflexivity. Qed.

Example ParseInt_bounds :
  strconv.ParseInt "-9223372036854775808" = (MinInt64, None)
  /\ strconv.ParseInt "9223372036854775808"
     = (MaxInt64, Some (NumError "ParseInt" "9223372036854775808" ErrRange))
  /\ strconv.ParseInt "+" = (0, Some (NumError "ParseInt" "+" ErrSyntax)).
Proof. split_and!; vm_compute; reflexivity. Qed.

Example Atoi_paths :
  strconv.Atoi "-42" = (-42, None)
  /\ strconv.Atoi "4x" = (0, Some (NumError "Atoi" "4x" ErrSyntax))
  /\ strconv.Atoi "9223372036854775808"
     = (MaxInt64, Some (NumError "Atoi" "9223372036854775808" ErrRange)).
Proof. split_and!; vm_compute; reflexivity. Qed.

Example float32_rounds_to_even :
  F32.of_Z 16777217 = F32.of_Z 16777216 /\ F32.of_Z 1 = F32.one.
Proof. split; vm_compute; reflexivity. Qed.

(** ** Log line parser *)

Section ParserFacts.

Variable LogLineLeader : string.

Lemma index_field (data : list string) (i : nat) :
  (i < length data)%nat -> index data i = Done (field data i).
Proof.
  intros Hi. unfold index, field.
  destruct (lookup_lt_is_Some_2 data i Hi) as [x ->]. done.
Qed.

(** On six fields the record is built exactly when the three numbers
    parse; the strconv error is replaced, never returned. *)
Lemma buildMessageLogFromStrings_spec (data : list string) :
  length data = 6%nat ->
  buildMessageLogFromStrings data =
    match (strconv.ParseUint (field data 3)).2,
          (strconv.ParseInt (field data 4)).2,
          (strconv.Atoi (field data 5)).2 with
    | None, None, None =>
        Done (Some {| HostID := field data 0; SenderID := field data 1;
                      MessageID := field data 2;
                      SeqNo := (strconv.ParseUint (field data 3)).1;
                      NanoTime := (strconv.ParseInt (field data 4)).1;
                      Seq := (strconv.Atoi (field data 5)).1 |}, None)
    | _, _, _ => Done (None, Some ErrImproperlyFormattedLogLine)
    end.
Proof.
  intros Hlen. unfold buildMessageLogFromStrings.
  rewrite !index_field by lia. simpl.
  destruct (strconv.ParseUint (field data 3)) as [seqNo [e1|]]; simpl; [done|].
  destruct (strconv.ParseInt (field data 4)) as [unixNano [e2|]]; simpl; [done|].
  destruct (strconv.Atoi (field data 5)) as [seq [e3|]]; simpl; done.
Qed.

Lemma parseLogLine_relevant (logLine : string) :
  strings.Contains logLine LogLineLeader = true ->
  parseLogLine LogLineLeader logLine =
    let data := strings.Split (strings.ReplaceAll logLine LogLineLeader EmptyString) "," in
    if decide (length data = 6%nat) then buildMessageLogFromStrings data
    else Done (None, Some ErrImproperlyFormattedLogLine).
Proof.
  intros Hc. unfold parseLogLine. rewrite Hc. simpl.
  unfold len. case_decide as Hl.
  - rewrite Hl. done.
  - destruct (Z.eqb_spec (Z.of_nat (length (strings.Split
      (strings.ReplaceAll logLine LogLineLeader EmptyString) ","))) 6); [lia | done].
Qed.

End ParserFacts.

(** C10: a line in which the marker does not occur is irrelevant: the
    parser returns no record and no error, whatever the line holds. *)
Theorem parseLogLine_irrelevant (LogLineLeader logLine : string) :
  (forall pre post, logLine <> (pre +:+ LogLineLeader +:+ post)%string) ->
  parseLogLine LogLineLeader logLine = Done (None, None).
Proof.
  intros Hno. unfold parseLogLine.
  destruct (strings.Contains logLine LogLineLeader) eqn:Hc; [|done].
  apply Contains_spec in Hc as (pre & post & ->). by destruct (Hno pre post).
Qed.

Lemma parseLogLine_irrelevant_witness :
  (forall pre post, "h2,h1,m1,0,1000,0"%string <> (pre +:+ "MARKER" +:+ post)%string)
  /\ parseLogLine "MARKER" "h2,h1,m1,0,1000,0" = Done (None, None).
Proof.
  assert (H : forall pre post,
             "h2,h1,m1,0,1000,0"%string <> (pre +:+ "MARKER" +:+ post)%string).
  { intros pre post Heq.
    assert (Hc : strings.Contains "h2,h1,m1,0,1000,0" "MARKER" = true)
      by (apply Contains_spec; eauto).
    vm_compute in Hc. discriminate. }
  split; [exact H | exact (parseLogLine_irrelevant "MARKER" "h2,h1,m1,0,1000,0" H)].
Defined.

(** C9: on a line that holds the marker, the parser fails with
    [ErrImproperlyFormattedLogLine] exactly when the line does not split
    into six fields or one of seqNo, nanoTime and seq does not parse; it
    fails with no other error, a strconv error is never returned, and it
    always returns. *)
Theorem parseLogLine_malformed (LogLineLeader logLine : string) (data : list string) :
  (exists pre post, logLine = (pre +:+ LogLineLeader +:+ post)%string) ->
  data = strings.Split (strings.ReplaceAll logLine LogLineLeader EmptyString) "," ->
  (parseLogLine LogLineLeader logLine = Done (None, Some ErrImproperlyFormattedLogLine)
   <-> (length data <> 6%nat
        \/ is_Some (strconv.ParseUint (field data 3)).2
        \/ is_Some (strconv.ParseInt (field data 4)).2
        \/ is_Some (strconv.Atoi (field data 5)).2))
  /\ (forall r e, parseLogLine LogLineLeader logLine = Done (r, Some e) ->
                  r = None /\ e = ErrImproperlyFormattedLogLine)
  /\ (exists res, parseLogLine LogLineLeader logLine = Done res).
Proof.
  intros Hc%Contains_spec ->.
  rewrite (parseLogLine_relevant _ _ Hc). cbv zeta.
  set (data := strings.Split _ _).
  case_decide as Hl.
  - rewrite (buildMessageLogFromStrings_spec data Hl).
    destruct (strconv.ParseUint (field data 3)) as [seqNo [e1|]]; simpl.
    { split_and!; [split; eauto 6 | intros ?? [= <- <-]; done | eauto]. }
    destruct (strconv.ParseInt (field data 4)) as [unixNano [e2|]]; simpl.
    { split_and!; [split; eauto 6 | intros ?? [= <- <-]; done | eauto]. }
    destruct (strconv.Atoi (field data 5)) as [seq [e3|]]; simpl.
    { split_and!; [split; eauto 6 | intros ?? [= <- <-]; done | eauto]. }
    split_and!; [split | intros ?? [=] | eauto].
    + intros [=].
    + intros [? | [[? [=]] | [[? [=]] | [? [=]]]]]. done.
  - split_and!; [split; eauto | intros ?? [= <- <-]; done | eauto].
Qed.

Lemma parseLogLine_malformed_witness :
  (exists pre post, "MARKERh2,h1,m1,0,1000"%string = (pre +:+ "MARKER" +:+ post)%string)
  /\ parseLogLine "MARKER" "MARKERh2,h1,m1,0,1000"
     = Done (None, Some ErrImproperlyFormattedLogLine).
Proof.
  assert (H : exists pre post,
             "MARKERh2,h1,m1,0,1000"%string = (pre +:+ "MARKER" +:+ post)%string)
    by (exists EmptyString, "h2,h1,m1,0,1000"%string; reflexivity).
  split; [exact H|].
  apply (proj1 (parseLogLine_malformed "MARKER" "MARKERh2,h1,m1,0,1000" _ H eq_refl)).
  left. vm_compute. lia.
Defined.

(** ** Message log aggregator *)

Section Grouping.

Implicit Types (m : gmap string (list MessageLog)) (logs : list MessageLog).

(** After the first loop the map holds, for every message id that
    occurs, the records of that id in the order of the input. *)
Lemma group_map_lookup logs id :
  foldl group_step ∅ logs !! id =
    match filter (same_id id) logs with
    | [] => None
    | g => Some g
    end.
Proof.
  induction logs as [|x logs IH] using rev_ind; [done|].
  rewrite foldl_snoc, filter_app. unfold group_step at 1.
  destruct (decide (MessageID x = id)) as [He|Hne].
  - rewrite He, lookup_insert_eq, IH.
    rewrite (filter_cons_True _ x []) by done.
    by destruct (filter (same_id id) logs).
  - rewrite lookup_insert_ne, IH by done.
    rewrite (filter_cons_False _ x []) by done.
    by rewrite app_nil_r.
Qed.

Lemma group_map_concat logs :
  concat (map_to_list (foldl group_step ∅ logs)).*2 ≡ₚ logs.
Proof.
  induction logs as [|x logs IH] using rev_ind.
  - simpl. by rewrite map_to_list_empty.
  - rewrite foldl_snoc. set (m := foldl group_step ∅ logs) in *.
    rewrite <- IH. unfold group_step.
    destruct (m !! MessageID x) as [g|] eqn:Hg; simpl.
    + rewrite <- insert_delete_eq.
      rewrite map_to_list_insert by apply lookup_delete_eq.
      rewrite <- (map_to_list_delete m _ _ Hg). simpl.
      rewrite <- !(assoc_L (++)). f_equiv. apply Permutation_app_comm.
    + rewrite map_to_list_insert by done. simpl.
      apply Permutation_cons_append.
  Qed.

Lemma collect_groups (l : list (string * list MessageLog)) (acc : list (list MessageLog)) :
  foldl (fun messageLogGroups kv => messageLogGroups ++ [kv.2]) acc l = acc ++ l.*2.
Proof.
  revert acc. induction l as [|kv l IH]; intros acc; simpl.
  - by rewrite app_nil_r.
  - by rewrite IH, <- (assoc_L (++)).
Qed.

Lemma groupMessageLogsByID_eq ord logs :
  groupMessageLogsByID ord logs = (range_of ord (foldl group_step ∅ logs)).*2.
Proof. unfold groupMessageLogsByID. by rewrite collect_groups. Qed.

(** The entries that [range] visits are the groups of the input. *)
Lemma range_entry ord logs i id g :
  range_of ord (foldl group_step ∅ logs) !! i = Some (id, g) ->
  g = filter (same_id id) logs /\ g <> [].
Proof.
  intros Hi. apply list_elem_of_lookup_2 in Hi.
  rewrite (range_of_perm ord) in Hi.
  apply elem_of_map_to_list in Hi. rewrite group_map_lookup in Hi.
  destruct (filter (same_id id) logs); by simplify_eq.
Qed.

End Grouping.

(** C7: grouping partitions the records: every group is non-empty and
    holds records of one message id only, two different groups hold
    different message ids, and the groups together are the input, no
    record lost and none twice. *)
Theorem groupMessageLogsByID_partition (ord : RangeOrder) (messageLogs : list MessageLog) :
  Forall (fun g => g <> [] /\ exists id, Forall (fun r => MessageID r = id) g)
         (groupMessageLogsByID ord messageLogs)
  /\ (forall i j g1 g2 r1 r2,
        i <> j ->
        groupMessageLogsByID ord messageLogs !! i = Some g1 ->
        groupMessageLogsByID ord messageLogs !! j = Some g2 ->
        r1 ∈ g1 -> r2 ∈ g2 -> MessageID r1 <> MessageID r2)
  /\ concat (groupMessageLogsByID ord messageLogs) ≡ₚ messageLogs.
Proof.
  rewrite groupMessageLogsByID_eq. split_and!.
  - apply Forall_lookup. intros i g Hi.
    apply list_lookup_fmap_Some in Hi as ([id g'] & -> & Hi). simpl.
    destruct (range_entry _ _ _ _ _ Hi) as [-> Hne]. split; [done|].
    exists id. apply Forall_forall. by intros r [? _]%list_elem_of_filter.
  - intros i j g1 g2 r1 r2 Hij Hi Hj Hr1 Hr2 Heq.
    apply list_lookup_fmap_Some in Hi as ([id1 g1'] & -> & Hi).
    apply list_lookup_fmap_Some in Hj as ([id2 g2'] & -> & Hj). simpl in *.
    destruct (range_entry _ _ _ _ _ Hi) as [-> _].
    destruct (range_entry _ _ _ _ _ Hj) as [-> _].
    apply list_elem_of_filter in Hr1 as [Hr1 _].
    apply list_elem_of_filter in Hr2 as [Hr2 _].
    unfold same_id in *. apply Hij.
    assert (Hnd : NoDup (range_of ord (foldl group_step ∅ messageLogs)).*1).
    { rewrite (range_of_perm ord). apply NoDup_fst_map_to_list. }
    apply (NoDup_lookup _ i j id1 Hnd).
    + by rewrite list_lookup_fmap, Hi.
    + rewrite list_lookup_fmap, Hj. simpl. congruence.
  - rewrite (range_of_perm ord). apply group_map_concat.
Qed.

(** ** Sorting a group *)

Section Sorting.

Implicit Types (s : list MessageLog) (x y : MessageLog).

Lemma insert_perm by_ x s : sorter.insert by_ x s ≡ₚ x :: s.
Proof.
  induction s as [|y s IH]; simpl; [done|].
  destruct (by_ y x); [|done].
  rewrite IH. apply Permutation_swap.
Qed.

Lemma Sort_perm by_ s : sorter.Sort by_ s ≡ₚ s.
Proof.
  unfold sorter.Sort. induction s as [|x s IH]; simpl; [done|].
  by rewrite insert_perm, IH.
Qed.

Lemma insert_sorted x s :
  StronglySorted nano_le s ->
  StronglySorted nano_le (sorter.insert unixNanoTimestamp x s).
Proof.
  induction 1 as [|y s Hs IH Hy]; simpl.
  - repeat constructor.
  - unfold unixNanoTimestamp at 1.
    destruct (Z.ltb_spec (NanoTime y) (NanoTime x)) as [Hlt|Hge].
    + constructor; [done|]. rewrite insert_perm. constructor; [|done].
      unfold nano_le. lia.
    + constructor; [by constructor|]. constructor; [done|].
      eapply Forall_impl; [exact Hy|]. unfold nano_le. intros z ?. lia.
Qed.

Lemma Sort_sorted s : StronglySorted nano_le (sorter.Sort unixNanoTimestamp s).
Proof.
  unfold sorter.Sort. induction s as [|x s IH]; simpl.
  - constructor.
  - by apply insert_sorted.
Qed.

(** In a sorted group the first record is the earliest one. *)
Lemma sorted_first_last s first last_ :
  StronglySorted nano_le s ->
  head s = Some first -> last s = Some last_ ->
  NanoTime first <= NanoTime last_.
Proof.
  intros Hs Hh Hl. destruct s as [|x s]; [done|].
  simpl in Hh. injection Hh as ->.
  apply StronglySorted_cons in Hs as [Hx _].
  apply last_Some_elem_of, elem_of_cons in Hl as [->|Hin]; [lia|].
  rewrite Forall_forall in Hx. exact (Hx _ Hin).
Qed.

Lemma calcTotalNanoTime_eq s first last_ :
  head s = Some first -> last s = Some last_ ->
  calcTotalNanoTime s = Done (uint64 (NanoTime last_ - NanoTime first)).
Proof.
  intros Hh Hl. unfold calcTotalNanoTime, index.
  rewrite last_lookup in Hl. rewrite head_lookup in Hh.
  replace (length s - 1)%nat with (pred (length s)) by lia.
  rewrite Hl. simpl. rewrite Hh. simpl. by rewrite uint64_int64.
Qed.

End Sorting.

(** Closes [Forall (fun r => is_int64 (NanoTime r)) l] on a list of
    concrete records. *)
Ltac int64_records :=
  repeat (apply Forall_cons_2;
          [unfold is_int64, MinInt64, MaxInt64; cbn; lia|]);
  apply Forall_nil_2.

(** In a sorted group the last record is the latest one. *)
Lemma sorted_last_max (s : list MessageLog) (last_ : MessageLog) :
  StronglySorted nano_le s -> last s = Some last_ ->
  Forall (fun r => NanoTime r <= NanoTime last_) s.
Proof.
  induction 1 as [|x s Hs IH Hx]; intros Hl; [constructor|].
  destruct s as [|y s'].
  - simpl in Hl. injection Hl as ->. constructor; [lia | constructor].
  - change (last (x :: y :: s')) with (last (y :: s')) in Hl.
    constructor; [|by apply IH].
    rewrite Forall_forall in Hx.
    exact (Hx _ (last_Some_elem_of _ _ Hl)).
Qed.

(** C6: every non-empty group of the input has, at its own position in
    the output of the per-group sort, a non-empty rearrangement of
    itself whose timestamps are in non-decreasing order: its first
    record carries the earliest and its last record the latest
    timestamp of the group.  On that sorted group [calcTotalNanoTime]
    returns the last timestamp minus the first, a difference that is
    not negative and that the conversion to uint64 leaves as it is. *)
Theorem sortMessageLogs_total_time
    (messageLogsGroups : list (list MessageLog)) (i : nat) (group : list MessageLog) :
  messageLogsGroups !! i = Some group ->
  group <> [] ->
  Forall (fun r => is_int64 (NanoTime r)) group ->
  length (sortMessageLogs messageLogsGroups) = length messageLogsGroups
  /\ exists sorted,
       sortMessageLogs messageLogsGroups !! i = Some sorted
       /\ sorted ≡ₚ group
       /\ length sorted = length group
       /\ Sorted Z.le (NanoTime <$> sorted)
       /\ exists first last_,
            head sorted = Some first /\ last sorted = Some last_
            /\ Forall (fun r => NanoTime first <= NanoTime r <= NanoTime last_) group
            /\ 0 <= NanoTime last_ - NanoTime first
            /\ calcTotalNanoTime sorted = Done (NanoTime last_ - NanoTime first).
Proof.
  intros Hi Hne Hwf. split.
  { unfold sortMessageLogs. apply length_fmap. }
  pose proof (Sort_sorted group) as Hs.
  pose proof (Sort_perm unixNanoTimestamp group) as Hp.
  exists (sorter.Sort unixNanoTimestamp group).
  set (sorted := sorter.Sort unixNanoTimestamp group) in *.
  assert (Hne' : sorted <> []).
  { intros E. rewrite E in Hp. apply Permutation_nil_l in Hp. by subst. }
  split_and!.
  - unfold sortMessageLogs. by rewrite list_lookup_fmap, Hi.
  - done.
  - by rewrite Hp.
  - apply (Sorted_fmap _ nano_le); [done|]. by apply StronglySorted_Sorted.
  - destruct (proj2 (head_is_Some sorted) Hne') as [first Hh].
    destruct (proj2 (last_is_Some sorted) Hne') as [last_ Hl].
    exists first, last_.
    pose proof (sorted_first_last _ _ _ Hs Hh Hl) as Hle.
    assert (Hwf' : Forall (fun r => is_int64 (NanoTime r)) sorted) by by rewrite Hp.
    split_and!; [done | done | | lia |].
    + rewrite <- Hp. apply Forall_forall. intros r Hr.
      pose proof (sorted_last_max _ _ Hs Hl) as Hmax.
      rewrite Forall_forall in Hmax. split; [|by apply Hmax].
      destruct sorted as [|x s']; [done|].
      simpl in Hh. injection Hh as ->.
      apply StronglySorted_cons in Hs as [Hx _].
      apply elem_of_cons in Hr as [->|Hin]; [lia|].
      rewrite Forall_forall in Hx. exact (Hx _ Hin).
    + rewrite (calcTotalNanoTime_eq _ _ _ Hh Hl). f_equal.
      rewrite Forall_forall in Hwf'.
      pose proof (Hwf' _ (head_Some_elem_of _ _ Hh)) as Hf.
      pose proof (Hwf' _ (last_Some_elem_of _ _ Hl)) as Hla.
      apply uint64_id. unfold is_int64, MinInt64, MaxInt64, MaxUint64 in *. lia.
Qed.

Lemma sortMessageLogs_total_time_witness :
  Run.four <> []
  /\ exists sorted,
       sortMessageLogs [Run.four] !! 0%nat = Some sorted
       /\ NanoTime <$> sorted = [1000; 1500; 2000; 2500]
       /\ calcTotalNanoTime sorted = Done 1500.
Proof.
  split; [discriminate|].
  destruct (sortMessageLogs_total_time [Run.four] 0 Run.four)
    as (_ & sorted & Hs & _ & _ & _ & f & l & Hf & Hl & _ & _ & H).
  - reflexivity.
  - discriminate.
  - int64_records.
  - exists sorted. split; [exact Hs|].
    vm_compute in Hs. injection Hs as <-.
    vm_compute in Hf, Hl. injection Hf as <-. injection Hl as <-.
    split; [vm_compute; reflexivity | exact H].
Defined.

(** ** Relative message redundancy *)

Section RMR.

Implicit Types (logs : list MessageLog) (ids : list string).

Lemma host_set_elem logs x :
  x ∈ foldl host_step ∅ logs
  <-> exists r, r ∈ logs /\ (HostID r = x \/ SenderID r = x).
Proof.
  induction logs as [|y logs IH] using rev_ind.
  - simpl. split; [set_solver|]. intros (r & Hr & _). by apply elem_of_nil in Hr.
  - rewrite foldl_snoc. unfold host_step at 1.
    rewrite !elem_of_union, !elem_of_singleton, IH. split.
    + intros [-> | [-> | (r & Hr & Hx)]].
      * exists y. split; [apply elem_of_app; right; by left | by right].
      * exists y. split; [apply elem_of_app; right; by left | by left].
      * exists r. split; [apply elem_of_app; by left | done].
    + intros (r & [Hr | ->%list_elem_of_singleton]%elem_of_app & Hx).
      * right. right. by exists r.
      * destruct Hx as [<- | <-]; auto.
Qed.

(** The map of [countUniqueHosts] has as many keys as there are unique hosts. *)
Lemma host_set_size logs ids :
  host_ids logs ids -> size (foldl host_step ∅ logs) = length ids.
Proof.
  intros [Hnd Hids]. unfold size, set_size. simpl.
  apply Permutation_length, NoDup_Permutation; [apply NoDup_elements | done |].
  intros x. by rewrite elem_of_elements, host_set_elem, Hids.
Qed.

Lemma host_ids_bound logs ids :
  host_ids logs ids -> (length ids <= 2 * length logs)%nat.
Proof.
  intros [Hnd Hids].
  replace (2 * length logs)%nat
    with (length (logs ≫= fun r => [HostID r; SenderID r])).
  - apply submseteq_length, NoDup_submseteq; [done|].
    intros x Hx. destruct (proj1 (Hids x) Hx) as (r & Hr & Hx').
    apply list_elem_of_bind. exists r.
    split; [|done]. rewrite !elem_of_cons. destruct Hx' as [<- | <-]; auto.
  - clear. induction logs as [|r logs IH]; [done|].
    change (length ((r :: logs) ≫= fun r => [HostID r; SenderID r]))
      with (S (S (length (logs ≫= fun r => [HostID r; SenderID r])))).
    rewrite IH. simpl. lia.
Qed.

Lemma host_ids_nonempty logs ids :
  host_ids logs ids -> logs <> [] -> (1 <= length ids)%nat.
Proof.
  intros [_ Hids] Hne. destruct logs as [|r logs]; [done|].
  assert (HostID r ∈ ids) as Hin by (apply Hids; exists r; split; [by left | by left]).
  destruct ids; [by apply elem_of_nil in Hin | simpl; lia].
Qed.

Lemma countUniqueHosts_eq logs ids :
  go_slice logs -> host_ids logs ids ->
  countUniqueHosts logs = Z.of_nat (length ids).
Proof.
  intros Hlen Hids. unfold countUniqueHosts.
  rewrite (host_set_size _ _ Hids). apply uint64_id.
  pose proof (host_ids_bound _ _ Hids).
  unfold go_slice, len, MaxInt64, MaxUint64 in *. lia.
Qed.

(** Every group has such a list of its unique hosts. *)
Lemma host_ids_remove_dups logs :
  host_ids logs (remove_dups (logs ≫= fun r => [HostID r; SenderID r])).
Proof.
  split; [apply NoDup_remove_dups|].
  intros x. rewrite elem_of_remove_dups, list_elem_of_bind. split.
  - intros (r & Hx & Hr). exists r. split; [done|].
    apply elem_of_cons in Hx as [->|Hx]; [by left|].
    apply list_elem_of_singleton in Hx as ->. by right.
  - intros (r & Hr & Hx). exists r. split; [|done].
    rewrite !elem_of_cons. destruct Hx as [<- | <-]; auto.
Qed.

End RMR.

(** C8: with at least two unique hosts [calcRMR] returns, without
    error, the float32 quotient of the record count by the number of
    unique hosts less one, minus 1.0; with four records and three unique
    hosts this is exactly 1.0. *)
Theorem calcRMR_value (sortedMessageLogs : list MessageLog) (ids : list string) :
  go_slice sortedMessageLogs ->
  host_ids sortedMessageLogs ids ->
  (2 <= length ids)%nat ->
  calcRMR sortedMessageLogs =
    (F32.sub (F32.div (F32.of_Z (Z.of_nat (length sortedMessageLogs)))
                      (F32.of_Z (Z.of_nat (length ids) - 1)))
             F32.one,
     None)
  /\ (length sortedMessageLogs = 4%nat -> length ids = 3%nat ->
      calcRMR sortedMessageLogs = (F32.one, None)).
Proof.
  intros Hlen Hids H2.
  assert (Heq : calcRMR sortedMessageLogs =
    (F32.sub (F32.div (F32.of_Z (Z.of_nat (length sortedMessageLogs)))
                      (F32.of_Z (Z.of_nat (length ids) - 1)))
             F32.one, None)).
  { unfold calcRMR. rewrite (countUniqueHosts_eq _ _ Hlen Hids).
    destruct (Z.eqb_spec (Z.of_nat (length ids)) 0) as [?|_]; [lia|].
    rewrite uint64_id; [done|].
    pose proof (host_ids_bound _ _ Hids).
    unfold go_slice, len, MaxInt64, MaxUint64 in *. lia. }
  split; [exact Heq|].
  intros H4 H3. rewrite Heq, H4, H3. vm_compute. reflexivity.
Qed.

Lemma calcRMR_value_witness : calcRMR Run.four = (F32.one, None).
Proof.
  refine (proj2 (calcRMR_value Run.four
                   (remove_dups (Run.four ≫= fun r => [HostID r; SenderID r]))
                   _ (host_ids_remove_dups Run.four) _) _ _).
  - unfold go_slice, len, MaxInt64. simpl. lia.
  - vm_compute. lia.
  - reflexivity.
  - vm_compute. reflexivity.
Defined.

(** C3: a group of one record whose host is its own sender has one
    unique host, and [calcRMR] returns +Inf with a nil error for it:
    the guard compares the count with 0, not with 1. *)
Theorem calcRMR_one_host :
  countUniqueHosts Run.alone = 1
  /\ calcRMR Run.alone = (F32.pos_inf, None).
Proof. split; vm_compute; reflexivity. Qed.

(** ** Propagation graph *)

Section Graph.

Implicit Types (m : gmap string (gmap string MessageLog)) (logs : list MessageLog).

Lemma edge_step_edge m msg a b :
  edge (edge_step m msg) a b
  <-> edge m a b \/ (a = SenderID msg /\ b = HostID msg).
Proof.
  unfold edge, edge_step.
  destruct (decide (a = SenderID msg)) as [->|Hne].
  - rewrite lookup_alter_eq.
    destruct (m !! SenderID msg) as [inner|] eqn:Hm.
    + rewrite Hm. simpl. split.
      * intros (inner' & [= <-] & Hb).
        rewrite lookup_insert_is_Some in Hb.
        destruct Hb as [<- | [_ Hb]]; [by right | left; eauto].
      * intros [(inner' & [= <-] & Hb) | [_ ->]];
          (eexists; split; [done|]); rewrite lookup_insert_is_Some;
          [destruct (decide (HostID msg = b)); auto | auto].
    + rewrite lookup_insert_eq. simpl. split.
      * intros (inner' & [= <-] & Hb).
        rewrite lookup_insert_is_Some, lookup_empty in Hb.
        destruct Hb as [<- | [_ [? [=]]]]. by right.
      * intros [(inner' & [=] & _) | [_ ->]].
        eexists; split; [done|]. rewrite lookup_insert_is_Some. auto.
  - rewrite lookup_alter_ne by done.
    destruct (m !! SenderID msg) as [inner|] eqn:Hm.
    + split; [auto | intros [? | [? _]]; done].
    + rewrite lookup_insert_ne by done.
      split; [auto | intros [? | [? _]]; done].
Qed.

(** The edges of the map built from a group are its forwarding relation. *)
Lemma buildEdges_edge logs a b : edge (buildEdges logs) a b <-> forwards logs a b.
Proof.
  unfold buildEdges.
  induction logs as [|x logs IH] using rev_ind.
  - simpl. split.
    + intros (inner & Hm & _). by rewrite lookup_empty in Hm.
    + intros (r & Hr & _). by apply elem_of_nil in Hr.
  - rewrite foldl_snoc, edge_step_edge, IH. unfold forwards. split.
    + intros [(r & Hr & Hs & Hh) | [-> ->]].
      * exists r. split; [apply elem_of_app; by left | done].
      * exists x. split; [apply elem_of_app; right; by left | done].
    + intros (r & [Hr | ->%list_elem_of_singleton]%elem_of_app & <- & <-).
      * left. by exists r.
      * by right.
Qed.

Lemma tc_iff (R R' : relation string) x y :
  (forall a b, R a b <-> R' a b) -> tc R x y <-> tc R' x y.
Proof.
  intros H. split; induction 1 as [x y Hxy | x y z Hxy _ IH];
    solve [apply tc_once, H, Hxy | eapply tc_l; [apply H, Hxy | exact IH]].
Qed.

Lemma buildEdges_acyclic logs :
  acyclic (forwards logs) <-> acyclic (edge (buildEdges logs)).
Proof.
  unfold acyclic. split; intros H x Hx; apply (H x);
    [apply (tc_iff (edge (buildEdges logs))) | apply (tc_iff (forwards logs))];
    try done; intros a b; by rewrite buildEdges_edge.
Qed.

(** A rank that falls along every step leaves no cycle. *)
Lemma rank_acyclic (R : relation string) (rank : string -> nat) :
  (forall a b, R a b -> (rank b < rank a)%nat) -> acyclic R.
Proof.
  intros Hr.
  assert (Htc : forall x y, tc R x y -> (rank y < rank x)%nat).
  { induction 1 as [x y Hxy | x y z Hxy _ IH]; [by apply Hr|].
    pose proof (Hr _ _ Hxy). lia. }
  intros x Hx. pose proof (Htc _ _ Hx). lia.
Qed.

End Graph.

(** ** Path enumeration *)

Section Paths.

Variable ord : RangeOrder.
Variable m : gmap string (gmap string MessageLog).

Implicit Types (s r x y : string) (fuel n : nat).

Lemma paths_loop_out rec_ s l : foldl (paths_step rec_ s) OutOfFuel l = OutOfFuel.
Proof. induction l as [|kv l IH]; [done | exact IH]. Qed.

(** The loop over the recipients adds nothing to [ret] as long as the
    recursive calls return no path, and is cut short by the first call
    that exceeds the depth. *)
Lemma paths_loop rec_ s l :
  (forall r, rec_ r = Done [] \/ rec_ r = OutOfFuel) ->
  (Exists (fun kv => rec_ kv.1 = OutOfFuel) l
   /\ foldl (paths_step rec_ s) (Done []) l = OutOfFuel)
  \/ (Forall (fun kv => rec_ kv.1 = Done []) l
      /\ foldl (paths_step rec_ s) (Done []) l = Done []).
Proof.
  intros Hrec. induction l as [|kv l IH].
  - right. split; [constructor | done].
  - assert (Hstep : paths_step rec_ s (Done []) kv = rec_ kv.1).
    { unfold paths_step. cbn [mbind exec_bind].
      destruct (Hrec kv.1) as [-> | ->]; done. }
    cbn [foldl]. rewrite Hstep.
    destruct (Hrec kv.1) as [Hk | Hk]; rewrite Hk.
    + destruct IH as [[He Hl] | [Hf Hl]].
      * left. split; [by apply Exists_cons_tl | done].
      * right. split; [by constructor | done].
    + left. split; [by apply Exists_cons_hd | apply paths_loop_out].
Qed.

(** The recipients that the loop visits are the hosts one step away. *)
Lemma recipients_edge s r :
  (exists v, (r, v) ∈ range_of ord (default ∅ (m !! s))) <-> edge m s r.
Proof.
  unfold edge. split.
  - intros [v Hv]. rewrite (range_of_perm ord) in Hv.
    apply elem_of_map_to_list in Hv.
    destruct (m !! s) as [inner|]; simpl in Hv; [eauto | by rewrite lookup_empty in Hv].
  - intros (inner & Hs & [v Hv]). exists v.
    rewrite (range_of_perm ord), Hs. simpl. by apply elem_of_map_to_list.
Qed.

(** A call with depth budget [fuel] returns, and then returns no path,
    exactly when no walk of [fuel] steps leaves the start. *)
Lemma buildPaths_spec fuel s :
  (buildPathsForSenderID ord fuel s m = OutOfFuel
   /\ exists y, nsteps (edge m) fuel s y)
  \/ (buildPathsForSenderID ord fuel s m = Done []
      /\ ~ exists y, nsteps (edge m) fuel s y).
Proof.
  revert s. induction fuel as [|fuel IH]; intros s.
  - left. split; [done|]. exists s. constructor.
  - cbn [buildPathsForSenderID].
    destruct (paths_loop (fun recipient => buildPathsForSenderID ord fuel recipient m) s
                (range_of ord (default ∅ (m !! s)))) as [[He Hl] | [Hf Hl]].
    + intros r. destruct (IH r) as [[-> _] | [-> _]]; auto.
    + left. split; [exact Hl|].
      apply Exists_exists in He as ([r v] & Hin & Hout). simpl in Hout.
      destruct (IH r) as [[_ [y Hy]] | [Hd _]]; [|congruence].
      exists y. eapply nsteps_l; [|exact Hy]. apply recipients_edge. eauto.
    + right. split; [exact Hl|].
      intros [y Hy]. inversion Hy as [|? ? r ? Hsr Hry]; subst.
      apply recipients_edge in Hsr as [v Hv].
      rewrite Forall_forall in Hf. specialize (Hf _ Hv). simpl in Hf.
      destruct (IH r) as [[Ho _] | [_ Hno]]; [congruence|].
      apply Hno. eauto.
Qed.

Lemma buildPaths_done fuel s :
  (~ exists y, nsteps (edge m) fuel s y) ->
  buildPathsForSenderID ord fuel s m = Done [].
Proof. intros Hno. by destruct (buildPaths_spec fuel s) as [[_ ?] | [? _]]. Qed.

Lemma buildPaths_out fuel s y :
  nsteps (edge m) fuel s y -> buildPathsForSenderID ord fuel s m = OutOfFuel.
Proof.
  intros Hy. destruct (buildPaths_spec fuel s) as [[? _] | [_ Hno]]; [done|].
  destruct Hno. eauto.
Qed.

(** Whatever the budget, a call that returns returns no path: the base
    case yields none and a host's paths are made of its recipients'. *)
Lemma buildPaths_empty fuel s paths :
  buildPathsForSenderID ord fuel s m = Done paths -> paths = [].
Proof. destruct (buildPaths_spec fuel s) as [[-> _] | [-> _]]; congruence. Qed.

(** Along a walk from [s0], as long as no host met is on a cycle, the
    hosts already passed are all different senders of the map. *)
Lemma walk_bound s0 :
  (forall x, rtc (edge m) s0 x -> ~ tc (edge m) x x) ->
  forall n (V : gset string) s y,
    rtc (edge m) s0 s ->
    V ⊆ dom m ->
    (forall v, v ∈ V -> tc (edge m) v s) ->
    nsteps (edge m) n s y ->
    (n + size V <= size (dom m))%nat.
Proof.
  intros Hacyc n. induction n as [|n IH]; intros V s y Hreach HV Hanc Hw.
  - simpl. by apply subseteq_size.
  - inversion Hw as [|? ? r ? Hsr Hry]; subst.
    assert (s ∉ V) as HsV by (intros Hin; exact (Hacyc s Hreach (Hanc s Hin))).
    assert (s ∈ dom m) as Hsd.
    { destruct Hsr as (inner & Hs & _). by apply elem_of_dom_2 in Hs. }
    specialize (IH ({[s]} ∪ V) r y).
    rewrite size_union, size_singleton in IH by (by apply disjoint_singleton_l).
    enough (n + (1 + size V) <= size (dom m))%nat by lia.
    apply IH.
    + eapply rtc_r; eauto.
    + apply union_subseteq. split; [by apply singleton_subseteq_l | done].
    + intros v [->%elem_of_singleton | Hv]%elem_of_union.
      * by apply tc_once.
      * eapply tc_r; eauto.
    + done.
Qed.

Lemma no_long_walk s n y :
  (forall x, rtc (edge m) s x -> ~ tc (edge m) x x) ->
  nsteps (edge m) n s y -> (n <= size (dom m))%nat.
Proof.
  intros Hacyc Hw.
  pose proof (walk_bound s Hacyc n ∅ s y) as H.
  rewrite size_empty in H. rewrite <- (Nat.add_0_r n).
  apply H; [done | apply empty_subseteq | by intros v ?%not_elem_of_empty | done].
Qed.

(** From a host that reaches a cycle there are walks of every length. *)
Lemma cycle_walks x :
  tc (edge m) x x -> forall n s, rtc (edge m) s x -> exists y, nsteps (edge m) n s y.
Proof.
  intros Hx n. induction n as [|n IH]; intros s Hs.
  - exists s. constructor.
  - assert (exists r, edge m s r /\ rtc (edge m) r x) as (r & Hsr & Hrx).
    { apply rtc_inv in Hs as [->|(r & ? & ?)]; [|eauto].
      inversion Hx as [? ? Hxx | ? r ? Hxr Hrx]; subst.
      - exists x. split; [done | constructor].
      - exists r. split; [done | by apply tc_rtc]. }
    destruct (IH r Hrx) as [y Hy]. exists y. by eapply nsteps_l.
Qed.

(** The enumeration returns from [s] exactly when [s] reaches no cycle,
    and then a budget of one more than the number of senders is enough. *)
Lemma buildPaths_returns_iff s :
  (exists fuel paths, buildPathsForSenderID ord fuel s m = Done paths)
  <-> (forall x, rtc (edge m) s x -> ~ tc (edge m) x x).
Proof.
  split.
  - intros (fuel & paths & Hd) x Hsx Hx.
    destruct (cycle_walks x Hx fuel s Hsx) as [y Hy].
    rewrite (buildPaths_out _ _ _ Hy) in Hd. discriminate.
  - intros Hacyc. exists (S (size (dom m))), []. apply buildPaths_done.
    intros [y Hy]. pose proof (no_long_walk _ _ _ Hacyc Hy). lia.
Qed.

End Paths.

(** ** Last delivery hop *)

Section LastDeliveryHop.

Implicit Types (ord : RangeOrder) (logs : list MessageLog).

Lemma calcLastDeliveryHop_eq ord fuel logs first :
  head logs = Some first ->
  calcLastDeliveryHop ord fuel logs =
    match buildPathsForSenderID ord fuel (SenderID first) (buildEdges logs) with
    | Done _ => Done 0
    | Panic => Panic
    | OutOfFuel => OutOfFuel
    end.
Proof.
  intros Hh. unfold calcLastDeliveryHop, index.
  rewrite <- head_lookup, Hh. cbn [mbind exec_bind].
  destruct (buildPathsForSenderID ord fuel (SenderID first) (buildEdges logs))
    as [paths| |] eqn:Hb; [|done|done].
  apply buildPaths_empty in Hb as ->. done.
Qed.

(** Ranging in another order changes neither whether the enumeration
    returns within a budget nor what it returns. *)
Lemma buildPaths_order ord1 ord2 fuel s (m : gmap string (gmap string MessageLog)) :
  buildPathsForSenderID ord1 fuel s m = buildPathsForSenderID ord2 fuel s m.
Proof.
  destruct (buildPaths_spec ord1 m fuel s) as [[-> [y Hy]] | [-> Hno]].
  - symmetry. by eapply buildPaths_out.
  - symmetry. by apply buildPaths_done.
Qed.

Lemma calcLastDeliveryHop_order ord1 ord2 fuel logs :
  calcLastDeliveryHop ord1 fuel logs = calcLastDeliveryHop ord2 fuel logs.
Proof.
  destruct logs as [|first logs]; [done|].
  rewrite !(calcLastDeliveryHop_eq _ _ _ first) by done.
  by rewrite (buildPaths_order ord1 ord2).
Qed.

Lemma calcLastDeliveryHop_cases ord fuel logs :
  logs <> [] ->
  calcLastDeliveryHop ord fuel logs = Done 0
  \/ calcLastDeliveryHop ord fuel logs = OutOfFuel.
Proof.
  intros Hne. destruct logs as [|first logs]; [done|].
  rewrite (calcLastDeliveryHop_eq _ _ _ first) by done.
  destruct (buildPaths_spec ord (buildEdges (first :: logs)) fuel (SenderID first))
    as [[-> _] | [-> _]]; auto.
Qed.

Lemma buildPaths_acyclic ord (m : gmap string (gmap string MessageLog)) s k :
  acyclic (edge m) ->
  buildPathsForSenderID ord (S (size (dom m)) + k) s m = Done [].
Proof.
  intros Hacyc. apply buildPaths_done. intros [y Hy].
  assert (S (size (dom m)) + k <= size (dom m))%nat; [|lia].
  apply (no_long_walk m s _ y); [|done]. intros x _. apply Hacyc.
Qed.

Lemma calcLastDeliveryHop_acyclic ord logs k :
  logs <> [] -> acyclic (forwards logs) ->
  calcLastDeliveryHop ord (S (size (dom (buildEdges logs))) + k) logs = Done 0.
Proof.
  intros Hne Hacyc. destruct logs as [|first logs]; [done|].
  rewrite (calcLastDeliveryHop_eq _ _ _ first) by done.
  rewrite buildPaths_acyclic; [done|]. by apply buildEdges_acyclic.
Qed.

Lemma forwards_rank logs (rank : string -> nat) :
  Forall (fun r => (rank (HostID r) < rank (SenderID r))%nat) logs ->
  acyclic (forwards logs).
Proof.
  intros Hf. apply (rank_acyclic _ rank).
  intros a b (r & Hr & <- & <-). rewrite Forall_forall in Hf. by apply Hf.
Qed.

Lemma chain_acyclic : acyclic (forwards Run.chain).
Proof.
  apply (forwards_rank _ Run.rank).
  repeat (apply Forall_cons_2; [vm_compute; lia|]). apply Forall_nil_2.
Qed.

Lemma loop_cycle : tc (edge (buildEdges Run.loop)) "A" "A".
Proof.
  apply tc_l with "B"%string; [|apply tc_once]; apply buildEdges_edge.
  - exists (Run.rec "B" "A" "m1" 100). split; [|done]. apply elem_of_cons. by left.
  - exists (Run.rec "A" "B" "m1" 200). split; [|done].
    apply elem_of_cons. right. apply elem_of_cons. by left.
Qed.

End LastDeliveryHop.

(** C2: on an edge map whose relation is acyclic the enumeration
    returns, from any start and in any range order, the empty list of
    paths, once the depth budget exceeds the number of senders; so for a
    non-empty group whose forwarding relation is acyclic
    [calcLastDeliveryHop] returns 0. *)
Theorem acyclic_no_paths (ord : RangeOrder) :
  (forall (m : gmap string (gmap string MessageLog)) (senderID : string) (k : nat),
     acyclic (edge m) ->
     buildPathsForSenderID ord (S (size (dom m)) + k) senderID m = Done [])
  /\ (forall (sortedMessageLogs : list MessageLog) (k : nat),
        sortedMessageLogs <> [] ->
        acyclic (forwards sortedMessageLogs) ->
        calcLastDeliveryHop ord (S (size (dom (buildEdges sortedMessageLogs))) + k)
          sortedMessageLogs = Done 0).
Proof.
  split.
  - intros m s k Hacyc. by apply buildPaths_acyclic.
  - intros logs k Hne Hacyc. by apply calcLastDeliveryHop_acyclic.
Qed.

Lemma acyclic_no_paths_witness :
  acyclic (forwards Run.chain)
  /\ buildPathsForSenderID range_asc 4 "A" (buildEdges Run.chain) = Done []
  /\ calcLastDeliveryHop range_desc 4 Run.chain = Done 0.
Proof.
  split; [exact chain_acyclic|]. split.
  - exact (proj1 (acyclic_no_paths range_asc) (buildEdges Run.chain) "A"%string 0%nat
             (proj1 (buildEdges_acyclic Run.chain) chain_acyclic)).
  - refine (proj2 (acyclic_no_paths range_desc) Run.chain 0%nat _ chain_acyclic).
    discriminate.
Defined.

(** C5: on an acyclic edge map the enumeration terminates, within a
    depth of one more than the number of senders; it has no cycle guard:
    from a start it returns if and only if no host reached from the
    start lies on a cycle, and from a start that reaches a cycle it
    exceeds every depth. *)
Theorem buildPathsForSenderID_terminates
    (ord : RangeOrder) (m : gmap string (gmap string MessageLog)) :
  (acyclic (edge m) ->
   forall senderID k,
     buildPathsForSenderID ord (S (size (dom m)) + k) senderID m = Done [])
  /\ (forall senderID,
        (exists fuel paths, buildPathsForSenderID ord fuel senderID m = Done paths)
        <-> (forall x, rtc (edge m) senderID x -> ~ tc (edge m) x x))
  /\ (forall senderID x,
        rtc (edge m) senderID x -> tc (edge m) x x ->
        forall fuel, buildPathsForSenderID ord fuel senderID m = OutOfFuel).
Proof.
  split_and!.
  - intros Hacyc s k. by apply buildPaths_acyclic.
  - intros s. apply buildPaths_returns_iff.
  - intros s x Hsx Hx fuel.
    destruct (cycle_walks m x Hx fuel s Hsx) as [y Hy].
    by eapply buildPaths_out.
Qed.

Lemma buildPathsForSenderID_terminates_witness :
  buildPathsForSenderID range_asc 4 "A" (buildEdges Run.chain) = Done []
  /\ forall fuel, buildPathsForSenderID range_asc fuel "A" (buildEdges Run.loop) = OutOfFuel.
Proof.
  split.
  - exact (proj1 (buildPathsForSenderID_terminates range_asc (buildEdges Run.chain))
             (proj1 (buildEdges_acyclic Run.chain) chain_acyclic) "A"%string 0%nat).
  - exact (proj2 (proj2 (buildPathsForSenderID_terminates range_asc (buildEdges Run.loop)))
             "A"%string "A"%string (rtc_refl _ _) loop_cycle).
Defined.

(** C1: for the chain A, B, C, D, three forwarding hops and no branch,
    [calcLastDeliveryHop] returns 0 in every range order, as soon as the
    depth budget lets it return; the budget 4 is enough. *)
Theorem calcLastDeliveryHop_chain (ord : RangeOrder) (k : nat) :
  calcLastDeliveryHop ord (4 + k) Run.chain = Done 0.
Proof.
  assert (Hsize : size (dom (buildEdges Run.chain)) = 3%nat) by (vm_compute; reflexivity).
  change (4 + k)%nat with (S 3 + k)%nat. rewrite <- Hsize.
  apply calcLastDeliveryHop_acyclic; [discriminate | exact chain_acyclic].
Qed.

(** ** Pipeline *)

Section Pipeline.

Implicit Types (ord : RangeOrder) (logs g : list MessageLog).

Lemma calcRMR_no_error g :
  g <> [] -> go_slice g -> (calcRMR g).2 = None.
Proof.
  intros Hne Hlen. unfold calcRMR.
  rewrite (countUniqueHosts_eq _ _ Hlen (host_ids_remove_dups g)).
  pose proof (host_ids_nonempty _ _ (host_ids_remove_dups g) Hne).
  destruct (Z.eqb_spec (Z.of_nat
    (length (remove_dups (g ≫= fun r => [HostID r; SenderID r])))) 0); [lia | done].
Qed.

Lemma calcTotalNanoTime_returns g :
  g <> [] -> exists total, calcTotalNanoTime g = Done total.
Proof.
  intros Hne.
  destruct (proj2 (head_is_Some g) Hne) as [first Hh].
  destruct (proj2 (last_is_Some g) Hne) as [last_ Hl].
  rewrite (calcTotalNanoTime_eq _ _ _ Hh Hl). eauto.
Qed.

(** For a non-empty group the metric is built or the depth budget is
    exceeded: there is neither an error nor a panic. *)
Lemma buildMetrics_cases ord fuel g :
  g <> [] -> go_slice g ->
  buildMetricsFromSortedMessageLogs ord fuel g = OutOfFuel
  \/ exists metric, buildMetricsFromSortedMessageLogs ord fuel g = Done (Some metric, None).
Proof.
  intros Hne Hlen. unfold buildMetricsFromSortedMessageLogs.
  destruct (Z.eqb_spec (len g) 0) as [H0|_].
  { destruct g; [done | unfold len in H0; simpl in H0; lia]. }
  destruct (calcTotalNanoTime_returns g Hne) as [total ->]. cbn [mbind exec_bind].
  pose proof (calcRMR_no_error g Hne Hlen) as Hr.
  destruct (calcRMR g) as [rmr err]. simpl in Hr. subst err.
  destruct (calcLastDeliveryHop_cases ord fuel g Hne) as [-> | ->]; simpl; eauto.
Qed.

Lemma buildMetrics_order ord1 ord2 fuel g :
  buildMetricsFromSortedMessageLogs ord1 fuel g
  = buildMetricsFromSortedMessageLogs ord2 fuel g.
Proof.
  unfold buildMetricsFromSortedMessageLogs.
  by rewrite (calcLastDeliveryHop_order ord1 ord2).
Qed.

Lemma buildMetricsLoop_spec ord fuel (groups : list (list MessageLog)) metrics :
  Forall (fun g => g <> [] /\ go_slice g) groups ->
  (Exists (fun g => buildMetricsFromSortedMessageLogs ord fuel g = OutOfFuel) groups
   /\ buildMetricsLoop ord fuel groups metrics = OutOfFuel)
  \/ (Forall (fun g => buildMetricsFromSortedMessageLogs ord fuel g <> OutOfFuel) groups
      /\ buildMetricsLoop ord fuel groups metrics =
           Done (metrics ++ ((fun g => metric_of (buildMetricsFromSortedMessageLogs ord fuel g))
                               <$> groups), None)).
Proof.
  intros Hg. revert metrics. induction Hg as [|g groups [Hne Hlen] _ IH]; intros metrics.
  - right. split; [constructor | simpl; by rewrite app_nil_r].
  - cbn [buildMetricsLoop].
    destruct (buildMetrics_cases ord fuel g Hne Hlen) as [Ho | [metric Hd]].
    + left. rewrite Ho. split; [by apply Exists_cons_hd | done].
    + rewrite Hd. cbn [mbind exec_bind].
      destruct (IH (metrics ++ [Some metric])) as [[He Hl] | [Hf Hl]].
      * left. split; [by apply Exists_cons_tl | done].
      * right. split; [constructor; [congruence | done]|].
        rewrite Hl, fmap_cons, Hd. simpl. by rewrite <- (assoc_L (++)).
Qed.

(** The groups of two range orders are the same groups. *)
Lemma groupMessageLogsByID_order ord1 ord2 logs :
  groupMessageLogsByID ord1 logs ≡ₚ groupMessageLogsByID ord2 logs.
Proof.
  rewrite !groupMessageLogsByID_eq.
  by rewrite (range_of_perm ord1), (range_of_perm ord2).
Qed.

Lemma sorted_groups_wf ord logs :
  go_slice logs ->
  Forall (fun g => g <> [] /\ go_slice g)
         (sortMessageLogs (groupMessageLogsByID ord logs)).
Proof.
  intros Hlen. unfold sortMessageLogs. apply Forall_fmap, Forall_lookup.
  intros i g Hi. simpl.
  pose proof (Sort_perm unixNanoTimestamp g) as Hp.
  rewrite groupMessageLogsByID_eq in Hi.
  apply list_lookup_fmap_Some in Hi as ([id g'] & -> & Hi). simpl in *.
  destruct (range_entry _ _ _ _ _ Hi) as [Hg Hne]. split.
  - intros Hnil. rewrite Hnil in Hp. by apply Permutation_nil_l in Hp.
  - unfold go_slice, len in *. rewrite (Permutation_length Hp), Hg.
    pose proof (length_filter (same_id id) logs). lia.
Qed.

Lemma buildMetrics_out ord fuel g :
  g <> [] -> go_slice g ->
  buildMetricsFromSortedMessageLogs ord fuel g = OutOfFuel ->
  calcLastDeliveryHop ord fuel g = OutOfFuel.
Proof.
  intros Hne Hlen. unfold buildMetricsFromSortedMessageLogs.
  destruct (Z.eqb_spec (len g) 0) as [H0|_]; [done|].
  destruct (calcTotalNanoTime_returns g Hne) as [total ->]. cbn [mbind exec_bind].
  destruct (calcRMR g) as [rmr [e|]]; [done|].
  destruct (calcLastDeliveryHop_cases ord fuel g Hne) as [-> | ->]; done.
Qed.

Lemma dom_edge_step (m : gmap string (gmap string MessageLog)) msg :
  dom (edge_step m msg) = {[SenderID msg]} ∪ dom m.
Proof.
  unfold edge_step. rewrite dom_alter_L.
  destruct (m !! SenderID msg) as [inner|] eqn:Hm.
  - symmetry. apply subseteq_union_1_L, singleton_subseteq_l.
    by apply elem_of_dom_2 in Hm.
  - apply dom_insert_L.
Qed.

(** The edge map of a group has at most one sender for each record. *)
Lemma buildEdges_size g : (size (dom (buildEdges g)) <= length g)%nat.
Proof.
  unfold buildEdges. induction g as [|x g IH] using rev_ind; [done|].
  rewrite foldl_snoc, dom_edge_step, length_app. simpl.
  destruct (decide (SenderID x ∈ dom (foldl edge_step ∅ g))) as [Hin|Hout].
  - rewrite subseteq_union_1_L by (by apply singleton_subseteq_l). lia.
  - rewrite size_union, size_singleton by (by apply disjoint_singleton_l). lia.
Qed.

Lemma forwards_perm g g' a b : g ≡ₚ g' -> forwards g a b -> forwards g' a b.
Proof. intros Hp (r & Hr & H). exists r. by rewrite <- Hp. Qed.

(** With a depth budget over the number of records, the pipeline
    returns when no message has a cycle in its forwarding relation. *)
Lemma buildMetricsFromMessageLogs_returns ord logs k :
  go_slice logs ->
  (forall id, acyclic (forwards (filter (same_id id) logs))) ->
  exists metrics,
    buildMetricsFromMessageLogs ord (S (length logs) + k) logs = Done (metrics, None).
Proof.
  intros Hlen Hacyc.
  unfold buildMetricsFromMessageLogs, buildMetricsFromSortedMessageLogsGroups.
  pose proof (sorted_groups_wf ord _ Hlen) as Hwf.
  destruct (buildMetricsLoop_spec ord (S (length logs) + k) _ [] Hwf)
    as [[He _] | [_ ->]]; [exfalso | eauto].
  apply Exists_exists in He as (g & Hin & Ho).
  rewrite Forall_forall in Hwf. destruct (Hwf g Hin) as [Hne Hg].
  apply (buildMetrics_out _ _ _ Hne Hg) in Ho.
  unfold sortMessageLogs in Hin.
  apply list_elem_of_fmap in Hin as (g0 & -> & Hin).
  apply list_elem_of_lookup in Hin as [i Hi].
  rewrite groupMessageLogsByID_eq in Hi.
  apply list_lookup_fmap_Some in Hi as ([id g'] & -> & Hi).
  cbn [snd] in Ho, Hne, Hg |- *.
  destruct (range_entry _ _ _ _ _ Hi) as [Hg' _].
  set (sorted := sorter.Sort unixNanoTimestamp g') in *.
  assert (Hp : sorted ≡ₚ filter (same_id id) logs)
    by (rewrite <- Hg'; apply Sort_perm).
  assert (Hsize : (size (dom (buildEdges sorted)) <= length logs)%nat).
  { pose proof (buildEdges_size sorted) as Hs.
    rewrite (Permutation_length Hp) in Hs.
    pose proof (length_filter (same_id id) logs). lia. }
  replace (S (length logs) + k)%nat
    with (S (size (dom (buildEdges sorted)))
          + (length logs - size (dom (buildEdges sorted)) + k))%nat in Ho by lia.
  rewrite calcLastDeliveryHop_acyclic in Ho; [done | done |].
  intros x Hx. apply (Hacyc id x).
  apply (tc_iff (forwards sorted)); [|exact Hx].
  intros a b. split; apply forwards_perm; [exact Hp | symmetry; exact Hp].
Qed.

End Pipeline.

(** C4, as the code has it: two runs of the pipeline on the same
    records, whatever the order in which each ranges over its maps,
    either both exceed the depth budget or both return, with no error,
    the same metrics up to their order; and they return, once the budget
    is over the number of records, when no message has a cycle in its
    forwarding relation. *)
Theorem buildMetricsFromMessageLogs_order
    (ord1 ord2 : RangeOrder) (fuel : nat) (messageLogs : list MessageLog) :
  go_slice messageLogs ->
  ((buildMetricsFromMessageLogs ord1 fuel messageLogs = OutOfFuel
    /\ buildMetricsFromMessageLogs ord2 fuel messageLogs = OutOfFuel)
   \/ (exists metrics1 metrics2,
         buildMetricsFromMessageLogs ord1 fuel messageLogs = Done (metrics1, None)
         /\ buildMetricsFromMessageLogs ord2 fuel messageLogs = Done (metrics2, None)
         /\ metrics1 ≡ₚ metrics2))
  /\ ((forall id, acyclic (forwards (filter (same_id id) messageLogs))) ->
      forall k, exists metrics,
        buildMetricsFromMessageLogs ord1 (S (length messageLogs) + k) messageLogs
        = Done (metrics, None)).
Proof.
  intros Hlen.
  split; [|intros Hacyc k; by apply buildMetricsFromMessageLogs_returns].
  unfold buildMetricsFromMessageLogs, buildMetricsFromSortedMessageLogsGroups.
  assert (Hperm : sortMessageLogs (groupMessageLogsByID ord1 messageLogs)
                  ≡ₚ sortMessageLogs (groupMessageLogsByID ord2 messageLogs)).
  { unfold sortMessageLogs. apply fmap_Permutation, groupMessageLogsByID_order. }
  destruct (buildMetricsLoop_spec ord1 fuel _ [] (sorted_groups_wf ord1 _ Hlen))
    as [[He1 ->] | [Hf1 ->]];
  destruct (buildMetricsLoop_spec ord2 fuel _ [] (sorted_groups_wf ord2 _ Hlen))
    as [[He2 ->] | [Hf2 ->]].
  - by left.
  - exfalso. rewrite Hperm in He1.
    apply Exists_exists in He1 as (g & Hin & Ho).
    rewrite Forall_forall in Hf2. apply (Hf2 g Hin).
    by rewrite <- (buildMetrics_order ord1 ord2).
  - exfalso. rewrite <- Hperm in He2.
    apply Exists_exists in He2 as (g & Hin & Ho).
    rewrite Forall_forall in Hf1. apply (Hf1 g Hin).
    by rewrite (buildMetrics_order ord1 ord2).
  - right. do 2 eexists. split_and!; [done | done |]. simpl.
    rewrite Hperm.
    rewrite (list_fmap_ext
               (fun g => metric_of (buildMetricsFromSortedMessageLogs ord1 fuel g))
               (fun g => metric_of (buildMetricsFromSortedMessageLogs ord2 fuel g))); [done|].
    intros i g _. by rewrite (buildMetrics_order ord1 ord2).
Qed.

Lemma buildMetricsFromMessageLogs_order_witness :
  go_slice Run.two
  /\ exists metrics1 metrics2,
       buildMetricsFromMessageLogs range_asc 3 Run.two = Done (metrics1, None)
       /\ buildMetricsFromMessageLogs range_desc 3 Run.two = Done (metrics2, None)
       /\ metrics1 ≡ₚ metrics2.
Proof.
  assert (Hlen : go_slice Run.two) by (unfold go_slice, len, MaxInt64; simpl; lia).
  split; [exact Hlen|].
  destruct (proj1 (buildMetricsFromMessageLogs_order range_asc range_desc 3 Run.two Hlen))
    as [[Ho _] | H]; [|exact H].
  vm_compute in Ho. discriminate.
Defined.

(** C4, as stated, fails: the two range orders give the two metrics of
    [Run.two] in opposite orders. *)
Lemma buildMetricsFromMessageLogs_order_counterexample :
  ~ (forall (ord1 ord2 : RangeOrder) (fuel : nat) (messageLogs : list MessageLog),
       buildMetricsFromMessageLogs ord1 fuel messageLogs
       = buildMetricsFromMessageLogs ord2 fuel messageLogs).
Proof.
  intros H. specialize (H range_asc range_desc 3%nat Run.two).
  vm_compute in H. discriminate.
Qed.

(** * Properties of the code around the engine *)

(** ** Reading the log *)

Section Reading.

Variable LogLineLeader : string.

Lemma parseLogLine_cases (logLine : string) :
  (strings.Contains logLine LogLineLeader = false
   /\ parseLogLine LogLineLeader logLine = Done (None, None))
  \/ (strings.Contains logLine LogLineLeader = true
      /\ (parseLogLine LogLineLeader logLine = Done (None, Some ErrImproperlyFormattedLogLine)
          \/ exists r, parseLogLine LogLineLeader logLine = Done (Some r, None))).
Proof.
  destruct (strings.Contains logLine LogLineLeader) eqn:Hc.
  - right. split; [done|]. rewrite (parseLogLine_relevant _ _ Hc). cbv zeta.
    case_decide as Hl; [|by left].
    rewrite (buildMessageLogFromStrings_spec _ Hl).
    repeat match goal with |- context [(?p).2] => destruct (p).2 end; eauto.
  - left. split; [done|]. unfold parseLogLine. by rewrite Hc.
Qed.

Lemma buildMessageLogsFromLines_eq (lines : list string) (messageLogs : list MessageLog) :
  buildMessageLogsFromLines LogLineLeader lines messageLogs =
    if forallb (fun l => negb (malformed LogLineLeader l)) lines
    then Done (messageLogs ++ omap (parsed LogLineLeader) lines, None)
    else Done ([], Some ErrImproperlyFormattedLogLine).
Proof.
  revert messageLogs. induction lines as [|l lines IH]; intros messageLogs.
  - simpl. by rewrite app_nil_r.
  - assert (Hm : malformed LogLineLeader l
                 = match parseLogLine LogLineLeader l with
                   | Done (_, Some _) => true | _ => false end) by done.
    assert (Hp : parsed LogLineLeader l
                 = match parseLogLine LogLineLeader l with
                   | Done (msgLog, None) => msgLog | _ => None end) by done.
    cbn [buildMessageLogsFromLines forallb]. rewrite Hm.
    change (omap (parsed LogLineLeader) (l :: lines))
      with (match parsed LogLineLeader l with
            | Some r => r :: omap (parsed LogLineLeader) lines
            | None => omap (parsed LogLineLeader) lines
            end).
    rewrite Hp.
    destruct (parseLogLine_cases l) as [[_ ->] | [_ [-> | [r ->]]]];
      cbn [mbind exec_bind negb andb]; [apply IH | done |].
    rewrite IH. destruct (forallb _ lines); [|done].
    by rewrite <- (assoc_L (++)).
Qed.

End Reading.

(** X1: the reading loop returns the records of the lines that hold the
    marker, in the order of the lines, when no line is malformed and the
    scanner ends without error; a malformed line makes it return
    [ErrImproperlyFormattedLogLine] and no record, even when the scanner
    failed as well; otherwise the error of the scanner is returned, again
    with no record. *)
Theorem buildMessageLogsFromScanner_result (LogLineLeader : string) (scanner : Scanner) :
  buildMessageLogsFromScanner LogLineLeader scanner =
    if forallb (fun l => negb (malformed LogLineLeader l)) (tokens scanner)
    then match scan_err scanner with
         | Some e => Done ([], Some e)
         | None => Done (omap (parsed LogLineLeader) (tokens scanner), None)
         end
    else Done ([], Some ErrImproperlyFormattedLogLine).
Proof.
  unfold buildMessageLogsFromScanner. rewrite buildMessageLogsFromLines_eq.
  destruct (forallb _ (tokens scanner)); [|done]. cbn [mbind exec_bind].
  by destruct (scan_err scanner).
Qed.

Section Irrelevant.

Variable LogLineLeader : string.



End Irrelevant.


(** ** The records of the parser *)

Section Records.

Lemma uint64_range z : 0 <= uint64 z <= MaxUint64.
Proof.
  unfold uint64, MaxUint64. pose proof (Z.mod_pos_bound z (2 ^ 64)). lia.
Qed.

Lemma int64_range z : is_int64 (int64 z).
Proof.
  unfold is_int64, int64, MinInt64, MaxInt64.
  pose proof (Z.mod_pos_bound (z + 2 ^ 63) (2 ^ 64)). lia.
Qed.

Lemma ParseUint_loop_range s0 s n v :
  0 <= n <= MaxUint64 ->
  strconv.ParseUint_loop s0 s n = (v, None) -> 0 <= v <= MaxUint64.
Proof.
  revert n. induction s as [|c s IH]; intros n Hn; cbn [strconv.ParseUint_loop].
  - by intros [= <-].
  - destruct (strconv.digit_of c) as [d|]; [|done].
    destruct (10 <=? d); [done|].
    destruct (strconv.cutoff10 <=? n); [done|].
    destruct (_ || _); [done|].
    apply IH, uint64_range.
Qed.

Lemma ParseUint_range s v :
  strconv.ParseUint s = (v, None) -> 0 <= v <= MaxUint64.
Proof.
  unfold strconv.ParseUint. case_decide; [done|].
  apply ParseUint_loop_range. unfold MaxUint64. lia.
Qed.

Lemma ParseInt_range s v : strconv.ParseInt s = (v, None) -> is_int64 v.
Proof.
  unfold strconv.ParseInt. destruct s as [|c rest]; [done|].
  destruct (if decide (c = "+"%char) then (false, rest)
            else if decide (c = "-"%char) then (true, rest)
            else (false, String c rest)) as [neg digits].
  destruct (strconv.ParseUint digits) as [un [[|? ? []|]|]]; try done.
  { by destruct neg. }
  destruct (negb neg && _); [done|]. destruct (neg && _); [done|].
  intros [= <-]. destruct neg; apply int64_range.
Qed.

Lemma Atoi_loop_range s0 s n v :
  is_int64 n -> strconv.Atoi_loop s0 s n = Some v -> is_int64 v.
Proof.
  revert n. induction s as [|c s IH]; intros n Hn; cbn [strconv.Atoi_loop].
  - by intros [= <-].
  - destruct (9 <? _); [done|]. apply IH, int64_range.
Qed.

Lemma Atoi_range s v : strconv.Atoi s = (v, None) -> is_int64 v.
Proof.
  unfold strconv.Atoi. destruct (_ && _).
  - destruct s as [|c rest]; [done|].
    destruct (_ && _); [done|].
    destruct (strconv.Atoi_loop _ _ 0) as [n|] eqn:Hl; [|done].
    apply Atoi_loop_range in Hl;
      [|unfold is_int64, MinInt64, MaxInt64; lia].
    intros [= <-]. case_bool_decide; [apply int64_range | done].
  - destruct (strconv.ParseInt s) as [i64 [e|]] eqn:Hp.
    + by destruct e.
    + intros [= <-]. by apply ParseInt_range in Hp.
Qed.

(** A comma in a string. *)
Lemma Contains_comma_cons c s :
  strings.Contains (String c s) "," = bool_decide (c = ","%char) || strings.Contains s ",".
Proof.
  change (strings.Contains (String c s) ",")
    with (String.prefix "," (String c s) || strings.Contains s ",").
  f_equal. cbn [String.prefix].
  destruct (Ascii.ascii_dec "," c) as [<-|Hne].
  - by destruct s.
  - symmetry. apply bool_decide_eq_false. congruence.
Qed.

Lemma Contains_comma_snoc cur c :
  strings.Contains (cur +:+ String c EmptyString) ","
  = strings.Contains cur "," || bool_decide (c = ","%char).
Proof.
  induction cur as [|a cur IH].
  - change (EmptyString +:+ String c EmptyString)%string with (String c EmptyString).
    rewrite (Contains_comma_cons c EmptyString). simpl. by rewrite orb_false_r.
  - rewrite append_cons, !Contains_comma_cons, IH. by rewrite orb_assoc.
Qed.

Lemma split_comma_free cur s :
  strings.Contains cur "," = false ->
  Forall (fun f => strings.Contains f "," = false) (strings.split_from 0 cur s ",").
Proof.
  revert cur. induction s as [|c s IH]; intros cur Hcur; cbn [strings.split_from].
  - by constructor.
  - destruct (String.prefix "," (String c s)) eqn:Hp.
    + constructor; [done|]. apply IH. done.
    + apply IH. rewrite Contains_comma_snoc, Hcur. simpl.
      apply bool_decide_eq_false. intros ->.
      cbn [String.prefix] in Hp. destruct (Ascii.ascii_dec "," ","); [|done].
      by destruct s.
Qed.

Lemma Split_comma_free s :
  Forall (fun f => strings.Contains f "," = false) (strings.Split s ",").
Proof. unfold strings.Split. case_decide; [done|]. by apply split_comma_free. Qed.

Lemma field_comma_free s i :
  strings.Contains (field (strings.Split s ",") i) "," = false.
Proof.
  unfold field. destruct (strings.Split s "," !! i) as [f|] eqn:Hf; [|done].
  pose proof (Split_comma_free s) as H. rewrite Forall_lookup in H. by eapply H.
Qed.

End Records.

(** X3: a record that the parser returns comes without error from a
    line that holds the marker and splits into six fields; its hostID,
    senderID and messageID are the first three fields and hold no comma,
    and its seqNo, nanoTime and seq are values of uint64, int64 and int. *)
Theorem parseLogLine_record (LogLineLeader logLine : string) (r : MessageLog)
    (err : option error) :
  parseLogLine LogLineLeader logLine = Done (Some r, err) ->
  err = None
  /\ strings.Contains logLine LogLineLeader = true
  /\ (exists data,
        data = strings.Split (strings.ReplaceAll logLine LogLineLeader EmptyString) ","
        /\ length data = 6%nat
        /\ HostID r = field data 0 /\ SenderID r = field data 1
        /\ MessageID r = field data 2)
  /\ strings.Contains (HostID r) "," = false
  /\ strings.Contains (SenderID r) "," = false
  /\ strings.Contains (MessageID r) "," = false
  /\ 0 <= SeqNo r <= MaxUint64
  /\ is_int64 (NanoTime r)
  /\ is_int64 (Seq r).
Proof.
  intros Hp.
  destruct (parseLogLine_cases LogLineLeader logLine) as [[_ H] | [Hc _]];
    [congruence|].
  rewrite (parseLogLine_relevant _ _ Hc) in Hp. cbv zeta in Hp.
  set (data := strings.Split _ _) in Hp.
  case_decide as Hl; [|done].
  rewrite (buildMessageLogFromStrings_spec data Hl) in Hp.
  destruct (strconv.ParseUint (field data 3)) as [seqNo [e1|]] eqn:H3; [done|].
  destruct (strconv.ParseInt (field data 4)) as [unixNano [e2|]] eqn:H4; [done|].
  destruct (strconv.Atoi (field data 5)) as [seq [e3|]] eqn:H5; [done|].
  simpl in Hp. injection Hp as <- <-. cbn [HostID SenderID MessageID SeqNo NanoTime Seq].
  split_and!; try done.
  - exists data. done.
  - apply field_comma_free.
  - apply field_comma_free.
  - apply field_comma_free.
  - apply ParseUint_range in H3. lia.
  - apply ParseUint_range in H3. lia.
  - by apply ParseInt_range in H4.
  - by apply Atoi_range in H5.
Qed.

Lemma parseLogLine_record_witness :
  parseLogLine "MARKER" Sample.line = Done (Some Sample.record, None)
  /\ strings.Contains (HostID Sample.record) "," = false
  /\ is_int64 (NanoTime Sample.record).
Proof.
  assert (H : parseLogLine "MARKER" Sample.line = Done (Some Sample.record, None))
    by (vm_compute; reflexivity).
  split; [exact H|].
  destruct (parseLogLine_record "MARKER" Sample.line Sample.record None H)
    as (_ & _ & _ & Hh & _ & _ & _ & Hn & _).
  split; [exact Hh | exact Hn].
Defined.

(** ** Grouping, edges and metrics *)

Section Engine.

Implicit Types (ord : RangeOrder) (logs g : list MessageLog).

(** The map of the grouping loop, as a list: one entry for each message
    id of the input, holding the records of that id in input order. *)
Lemma group_list_perm logs :
  map_to_list (foldl group_step ∅ logs)
  ≡ₚ (fun id => (id, filter (same_id id) logs)) <$> remove_dups (MessageID <$> logs).
Proof.
  apply NoDup_Permutation.
  - apply NoDup_map_to_list.
  - apply NoDup_fmap_2; [by intros ?? [=] | apply NoDup_remove_dups].
  - intros [id g]. rewrite elem_of_map_to_list, group_map_lookup, list_elem_of_fmap.
    split.
    + destruct (filter (same_id id) logs) as [|r g'] eqn:Hf; [done|].
      intros [= <-]. exists id. split; [by rewrite Hf|].
      apply elem_of_remove_dups, list_elem_of_fmap. exists r.
      assert (r ∈ filter (same_id id) logs) as Hr by (rewrite Hf; by left).
      apply list_elem_of_filter in Hr as [Hid Hin]. done.
    + intros (id' & [= -> ->] & Hin).
      apply elem_of_remove_dups, list_elem_of_fmap in Hin as (r & Hid & Hr).
      assert (r ∈ filter (same_id id') logs) as Hf
        by (apply list_elem_of_filter; done).
      destruct (filter (same_id id') logs); [by apply elem_of_nil in Hf | done].
Qed.

Lemma groups_perm ord logs :
  groupMessageLogsByID ord logs
  ≡ₚ (fun id => filter (same_id id) logs) <$> remove_dups (MessageID <$> logs).
Proof.
  rewrite groupMessageLogsByID_eq, (range_of_perm ord), group_list_perm.
  by rewrite <- list_fmap_compose.
Qed.

Lemma edge_step_lookup (m : gmap string (gmap string MessageLog)) msg s h :
  edge_step m msg !! s ≫= (fun inner => inner !! h)
  = if decide (SenderID msg = s /\ HostID msg = h) then Some msg
    else m !! s ≫= (fun inner => inner !! h).
Proof.
  unfold edge_step.
  destruct (decide (SenderID msg = s)) as [<-|Hs].
  - rewrite lookup_alter_eq.
    destruct (m !! SenderID msg) as [inner|] eqn:Hm.
    + rewrite Hm. simpl. case_decide as Hd.
      * destruct Hd as [_ <-]. by rewrite lookup_insert_eq.
      * rewrite lookup_insert_ne; [done|]. intros ?. by apply Hd.
    + rewrite lookup_insert_eq. simpl. case_decide as Hd.
      * destruct Hd as [_ <-]. by rewrite lookup_insert_eq.
      * rewrite lookup_insert_ne; [by rewrite lookup_empty|]. intros ?. by apply Hd.
  - rewrite lookup_alter_ne by done.
    rewrite decide_False by (by intros [? _]).
    destruct (m !! SenderID msg); [done|]. by rewrite lookup_insert_ne.
Qed.

Lemma calcLastDeliveryHop_empty ord fuel : calcLastDeliveryHop ord fuel [] = Panic.
Proof. done. Qed.

Lemma buildMetrics_hop ord fuel g o e :
  g <> [] ->
  buildMetricsFromSortedMessageLogs ord fuel g = Done (o, e) ->
  (e = None /\ exists metric, o = Some metric /\ LastDeliveryHop metric = 0)
  \/ (o = None /\ e = (calcRMR g).2 /\ is_Some e).
Proof.
  intros Hne. unfold buildMetricsFromSortedMessageLogs.
  destruct (Z.eqb_spec (len g) 0) as [H0|_].
  { destruct g; [done | unfold len in H0; simpl in H0; lia]. }
  destruct (calcTotalNanoTime_returns g Hne) as [total ->]. cbn [mbind exec_bind].
  destruct (calcRMR g) as [rmr [e'|]]; simpl.
  - intros [= <- <-]. right. eauto.
  - destruct (calcLastDeliveryHop_cases ord fuel g Hne) as [-> | ->]; [|done].
    simpl. intros [= <- <-]. left. eauto.
Qed.

End Engine.

(** X4: the groups that [groupMessageLogsByID] returns are, in some
    order, one group for each message id that occurs in the input, and
    the group of an id holds the records of that id in the order in
    which the input has them. *)
Theorem groupMessageLogsByID_groups (ord : RangeOrder) (messageLogs : list MessageLog) :
  groupMessageLogsByID ord messageLogs
  ≡ₚ (fun id => filter (same_id id) messageLogs)
       <$> remove_dups (MessageID <$> messageLogs).
Proof. apply groups_perm. Qed.

(** X5: in the edge map of a group the record kept for a sender and a
    recipient is the last record of the group with that sender and that
    recipient: a later record overwrites an earlier one, and a pair that
    no record has is absent. *)
Theorem buildEdges_last_wins (sortedMessageLogs : list MessageLog) (s h : string) :
  buildEdges sortedMessageLogs !! s ≫= (fun inner => inner !! h)
  = last (filter (fun r => SenderID r = s /\ HostID r = h) sortedMessageLogs).
Proof.
  unfold buildEdges.
  induction sortedMessageLogs as [|x logs IH] using rev_ind; [done|].
  rewrite foldl_snoc, edge_step_lookup, filter_app, IH.
  case_decide as Hd.
  - rewrite (filter_cons_True _ x []) by done. by rewrite filter_nil, last_snoc.
  - rewrite (filter_cons_False _ x []) by done. by rewrite filter_nil, app_nil_r.
Qed.

(** X6: [calcTotalNanoTime] takes the last timestamp minus the first as
    it finds them: on a group whose last record is not earlier than its
    first it returns their difference, and on a group whose last record
    is earlier, as an unsorted group may be, it returns the difference
    plus 2^64, with no error. *)
Theorem calcTotalNanoTime_wrap (sortedMessageLogs : list MessageLog)
    (first last_ : MessageLog) :
  head sortedMessageLogs = Some first ->
  last sortedMessageLogs = Some last_ ->
  is_int64 (NanoTime first) ->
  is_int64 (NanoTime last_) ->
  calcTotalNanoTime sortedMessageLogs =
    Done (if NanoTime first <=? NanoTime last_
          then NanoTime last_ - NanoTime first
          else NanoTime last_ - NanoTime first + 2 ^ 64).
Proof.
  intros Hh Hl Hf Hla. rewrite (calcTotalNanoTime_eq _ _ _ Hh Hl). f_equal.
  unfold is_int64, MinInt64, MaxInt64, uint64 in *.
  destruct (Z.leb_spec (NanoTime first) (NanoTime last_)).
  - apply Z.mod_small. lia.
  - symmetry. apply (Z.mod_unique _ _ (-1)); lia.
Qed.

Lemma calcTotalNanoTime_wrap_witness :
  calcTotalNanoTime Sample.unsorted = Done (2 ^ 64 - 600).
Proof.
  rewrite (calcTotalNanoTime_wrap Sample.unsorted
             (Run.rec "h2" "h1" "m1" 1000) (Run.rec "h3" "h2" "m1" 400)).
  - reflexivity.
  - reflexivity.
  - reflexivity.
  - unfold is_int64, MinInt64, MaxInt64. cbn. lia.
  - unfold is_int64, MinInt64, MaxInt64. cbn. lia.
Defined.

(** X7: the length test of [buildMetricsFromSortedMessageLogs] is what
    keeps it from a panic: on the empty group [calcTotalNanoTime] and
    [calcLastDeliveryHop] both panic, and the function returns the error
    "no message logs" instead of calling them; it panics on no group;
    and on a group that fits in a slice it returns an error only if the
    group is empty. *)
Theorem buildMetricsFromSortedMessageLogs_guard
    (ord : RangeOrder) (fuel : nat) (sortedMessageLogs : list MessageLog) :
  (sortedMessageLogs = [] ->
   calcTotalNanoTime sortedMessageLogs = Panic
   /\ calcLastDeliveryHop ord fuel sortedMessageLogs = Panic
   /\ buildMetricsFromSortedMessageLogs ord fuel sortedMessageLogs
      = Done (None, Some (errors_New "no message logs")))
  /\ buildMetricsFromSortedMessageLogs ord fuel sortedMessageLogs <> Panic
  /\ (go_slice sortedMessageLogs ->
      forall metric e,
        buildMetricsFromSortedMessageLogs ord fuel sortedMessageLogs
        = Done (metric, Some e) ->
        sortedMessageLogs = []).
Proof.
  split_and!.
  - intros ->. done.
  - destruct sortedMessageLogs as [|r g]; [done|].
    destruct (buildMetricsFromSortedMessageLogs ord fuel (r :: g)) as [[o e]| |] eqn:Hb;
      [done| |done].
    exfalso. revert Hb. unfold buildMetricsFromSortedMessageLogs.
    destruct (len (r :: g) =? 0); [done|].
    destruct (calcTotalNanoTime_returns (r :: g)) as [total ->]; [done|].
    cbn [mbind exec_bind]. destruct (calcRMR (r :: g)) as [rmr [e'|]]; [done|].
    destruct (calcLastDeliveryHop_cases ord fuel (r :: g)) as [-> | ->]; done.
  - intros Hlen metric e Hb.
    destruct sortedMessageLogs as [|r g]; [done|]. exfalso.
    assert (Hne : r :: g <> []) by done.
    destruct (buildMetrics_hop _ _ _ _ _ Hne Hb)
      as [[? _] | (_ & He & _)]; [done|].
    rewrite (calcRMR_no_error (r :: g)) in He; done.
Qed.

(** X8: on a group that fits in a slice [calcRMR] returns its error, the
    one that names one host, exactly when the group is empty: a group
    with a record has at least one unique host, which the test against 0
    lets pass. *)
Theorem calcRMR_error_iff (sortedMessageLogs : list MessageLog) :
  go_slice sortedMessageLogs ->
  ((calcRMR sortedMessageLogs).2 = None <-> sortedMessageLogs <> [])
  /\ ((calcRMR sortedMessageLogs).2
        = Some (errors_New "cannot calculate RMR with one host")
      <-> sortedMessageLogs = []).
Proof.
  intros Hlen. destruct sortedMessageLogs as [|r g].
  - split; (split; [done|]); done.
  - rewrite (calcRMR_no_error (r :: g)) by done.
    split; (split; [done|]); done.
Qed.

Lemma calcRMR_error_iff_witness :
  (calcRMR Run.alone).2 = None.
Proof.
  refine (proj2 (proj1 (calcRMR_error_iff Run.alone _)) _); [|done].
  unfold go_slice, len, MaxInt64. simpl. lia.
Defined.

(** X9: when the pipeline returns for records that fit in a slice, it
    returns no error and one metric, none of them nil, for each message
    id that occurs in the input, and every metric has a last delivery hop
    of 0, whatever the forwarding relation of its message. *)
Theorem buildMetricsFromMessageLogs_shape
    (ord : RangeOrder) (fuel : nat) (messageLogs : list MessageLog)
    (metrics : list (option Metric)) (err : option error) :
  go_slice messageLogs ->
  buildMetricsFromMessageLogs ord fuel messageLogs = Done (metrics, err) ->
  err = None
  /\ length metrics = length (remove_dups (MessageID <$> messageLogs))
  /\ Forall (fun o => exists metric, o = Some metric /\ LastDeliveryHop metric = 0)
            metrics.
Proof.
  intros Hlen.
  unfold buildMetricsFromMessageLogs, buildMetricsFromSortedMessageLogsGroups.
  pose proof (sorted_groups_wf ord _ Hlen) as Hwf.
  destruct (buildMetricsLoop_spec ord fuel _ [] Hwf) as [[_ ->] | [Hf ->]]; [done|].
  intros [= <- <-]. split_and!; [done | |].
  - cbn [app]. unfold sortMessageLogs. rewrite !length_fmap.
    by rewrite (Permutation_length (groups_perm ord messageLogs)), length_fmap.
  - cbn [app]. apply Forall_fmap, Forall_forall. intros g Hg. simpl.
    rewrite Forall_forall in Hwf, Hf.
    destruct (Hwf g Hg) as [Hne Hgs]. specialize (Hf g Hg).
    destruct (buildMetricsFromSortedMessageLogs ord fuel g) as [[o e]| |] eqn:Hb.
    + destruct (buildMetrics_hop _ _ _ _ _ Hne Hb) as [[_ Hm] | (_ & He & Hs)];
        [exact Hm|].
      rewrite (calcRMR_no_error g Hne Hgs) in He. subst e. by destruct Hs.
    + destruct (buildMetrics_cases ord fuel g Hne Hgs) as [? | [? ?]]; congruence.
    + done.
Qed.

Lemma buildMetricsFromMessageLogs_shape_witness :
  exists metrics,
    buildMetricsFromMessageLogs range_asc 3 Run.two = Done (metrics, None)
    /\ length metrics = 2%nat.
Proof.
  assert (Hlen : go_slice Run.two) by (unfold go_slice, len, MaxInt64; simpl; lia).
  destruct (buildMetricsFromMessageLogs range_asc 3 Run.two) as [[metrics err]| |] eqn:Hb;
    [|vm_compute in Hb; discriminate..].
  destruct (buildMetricsFromMessageLogs_shape _ _ _ _ _ Hlen Hb) as (-> & Hl & _).
  exists metrics. split; [done|]. rewrite Hl. vm_compute. reflexivity.
Defined.

(** ** Configuration *)

Section ConfigFacts.

Context {PrivKey : Type}.
Implicit Types (conf defaults : Config PrivKey).

(** Field by field: what is set in [conf] stays, what is not comes from
    [defaults]. *)
Lemma mergeDefaults_fields conf defaults :
  mergeDefaults conf defaults =
    {| Host_ :=
         {| PrivPEM := PrivPEM (Host_ conf);
            Priv := or_else_key (Priv (Host_ conf)) (Priv (Host_ defaults));
            Listens := or_else_list (Listens (Host_ conf)) (Listens (Host_ defaults));
            Peers := or_else_list (Peers (Host_ conf)) (Peers (Host_ defaults));
            Transports :=
              or_else_list (Transports (Host_ conf)) (Transports (Host_ defaults));
            Muxers := or_else_list (Muxers (Host_ conf)) (Muxers (Host_ defaults));
            Security :=
              or_else_string (Security (Host_ conf)) (Security (Host_ defaults)) |} |}.
Proof.
  destruct conf as [[pem p l pe t m s]].
  unfold mergeDefaults, or_else_string, or_else_list, or_else_key.
  destruct p, l, pe, t, m;
    repeat (first [ progress change (len (@nil string) =? 0) with true
                  | progress change (len (@nil (list string)) =? 0) with true
                  | progress cbn [Host_ PrivPEM Priv Listens Peers Transports Muxers
                                  Security set_Priv set_Listens set_Peers
                                  set_Transports set_Muxers set_Security]
                  | match goal with
                    | |- context [len (?x :: ?k) =? 0] =>
                        change (len (x :: k) =? 0) with false
                    end ]);
    case_bool_decide; reflexivity.
Qed.

Lemma or_else_list_assoc {A} (l d1 d2 : list A) :
  or_else_list (or_else_list l d1) d2 = or_else_list l (or_else_list d1 d2).
Proof. by destruct l, d1. Qed.

Lemma or_else_string_assoc (s d1 d2 : string) :
  or_else_string (or_else_string s d1) d2 = or_else_string s (or_else_string d1 d2).
Proof. unfold or_else_string. repeat case_bool_decide; congruence. Qed.

Lemma or_else_key_assoc (p d1 d2 : option PrivKey) :
  or_else_key (or_else_key p d1) d2 = or_else_key p (or_else_key d1 d2).
Proof. by destruct p, d1. Qed.

End ConfigFacts.

(** X10: defaults merge in layers: filling a configuration from
    [d1] and then from [d2] is filling it from [d1] filled from [d2];
    filling twice from the same defaults is filling once; a complete
    configuration is left as it is; and with complete defaults the
    result is complete. *)
Theorem mergeDefaults_layers {PrivKey : Type} (conf d1 d2 : Config PrivKey) :
  mergeDefaults (mergeDefaults conf d1) d2 = mergeDefaults conf (mergeDefaults d1 d2)
  /\ mergeDefaults (mergeDefaults conf d1) d1 = mergeDefaults conf d1
  /\ (complete conf -> mergeDefaults conf d1 = conf)
  /\ (complete d1 -> complete (mergeDefaults conf d1)).
Proof.
  split_and!.
  - rewrite !mergeDefaults_fields. cbn.
    by rewrite !or_else_list_assoc, or_else_string_assoc, or_else_key_assoc.
  - rewrite !mergeDefaults_fields. cbn.
    destruct conf as [[pem p l pe t m s]], d1 as [[pem1 p1 l1 pe1 t1 m1 s1]]. cbn.
    do 2 f_equal.
    + by destruct p, p1.
    + by destruct l, l1.
    + by destruct pe, pe1.
    + by destruct t, t1.
    + by destruct m, m1.
    + unfold or_else_string. repeat case_bool_decide; congruence.
  - intros (Hp & Hl & Hpe & Ht & Hm & Hs). rewrite mergeDefaults_fields.
    destruct conf as [[pem p l pe t m s]]. cbn in *. do 2 f_equal.
    + by destruct p.
    + by destruct l.
    + by destruct pe.
    + by destruct t.
    + by destruct m.
    + unfold or_else_string. by case_bool_decide.
  - intros (Hp & Hl & Hpe & Ht & Hm & Hs). rewrite mergeDefaults_fields.
    destruct conf as [[pem p l pe t m s]], d1 as [[pem1 p1 l1 pe1 t1 m1 s1]].
    unfold complete. cbn in *. split_and!.
    + by destruct p.
    + by destruct l.
    + by destruct pe.
    + by destruct t.
    + by destruct m.
    + unfold or_else_string. by case_bool_decide.
Qed.

(** ** File names *)

Section FileNames.

Lemma take_drop n s : (gostr.take n s +:+ gostr.drop n s)%string = s.
Proof.
  revert s. induction n as [|n IH]; intros [|c s]; cbn [gostr.take gostr.drop];
    try reflexivity.
  by rewrite append_cons, IH.
Qed.

Lemma drop_length n s : String.length (gostr.drop n s) = (String.length s - n)%nat.
Proof.
  revert s. induction n as [|n IH]; intros [|c s]; cbn [gostr.drop String.length];
    done.
Qed.

Lemma get_drop j s c :
  String.get j s = Some c -> gostr.drop j s = String c (gostr.drop (S j) s).
Proof.
  revert s. induction j as [|j IH]; intros [|a s]; cbn [String.get gostr.drop];
    try done.
  - by intros [= ->].
  - intros H. rewrite (IH _ H). done.
Qed.

Lemma get_None_drop j s : String.get j s = None -> gostr.drop j s = EmptyString.
Proof.
  revert s. induction j as [|j IH]; intros [|a s]; cbn [String.get gostr.drop];
    try done. apply IH.
Qed.

(** What the loop of [filepath.Ext] returns, given that it has met
    neither a dot nor a separator from [i] on. *)
Lemma Ext_loop_spec path i :
  gostr.has_byte "." (gostr.drop i path) = false ->
  gostr.has_byte "/" (gostr.drop i path) = false ->
  gostr.Ext_loop path i = EmptyString
  \/ exists j e,
       (j < i)%nat /\ gostr.Ext_loop path i = gostr.drop j path
       /\ gostr.drop j path = String "." e
       /\ gostr.has_byte "." e = false /\ gostr.has_byte "/" e = false.
Proof.
  induction i as [|i IH]; intros Hdot Hsep; cbn [gostr.Ext_loop]; [by left|].
  destruct (String.get i path) as [c|] eqn:Hg; [|by left].
  pose proof (get_drop _ _ _ Hg) as Hd.
  case_bool_decide as Hs; [by left|].
  case_bool_decide as Hp.
  - subst c. right. exists i, (gostr.drop (S i) path). split_and!; auto.
  - destruct IH as [He | (j & e & Hj & He & Hje & H1 & H2)].
    + rewrite Hd. cbn [gostr.has_byte]. rewrite Hdot. rewrite orb_false_r.
      by apply bool_decide_eq_false.
    + rewrite Hd. cbn [gostr.has_byte]. rewrite Hsep. rewrite orb_false_r.
      by apply bool_decide_eq_false.
    + by left.
    + right. exists j, e. split_and!; auto.
Qed.

Lemma drop_all s : gostr.drop (String.length s) s = EmptyString.
Proof. induction s; [done | exact IHs]. Qed.

Lemma TrimSuffix_drop j s :
  (j <= String.length s)%nat ->
  gostr.TrimSuffix s (gostr.drop j s) = gostr.take j s.
Proof.
  intros Hj. unfold gostr.TrimSuffix, gostr.HasSuffix. rewrite drop_length.
  replace (String.length s - (String.length s - j))%nat with j by lia.
  rewrite bool_decide_eq_true_2 by done.
  destruct (Nat.leb_spec (String.length s - j) (String.length s)); [done | lia].
Qed.

End FileNames.

(** X11: [trimExtension] cuts a file name in two: what it returns,
    followed by the extension that [filepath.Ext] finds, is the file name;
    and that extension is empty or is a dot followed by bytes among which
    there is neither a dot nor a slash, so that only the last extension
    of the last element is taken off. *)
Theorem trimExtension_ext (filename : string) :
  (trimExtension filename +:+ gostr.Ext filename)%string = filename
  /\ (gostr.Ext filename = EmptyString
      \/ exists e, gostr.Ext filename = String "." e
                   /\ gostr.has_byte "." e = false
                   /\ gostr.has_byte "/" e = false).
Proof.
  unfold trimExtension, gostr.Ext.
  destruct (Ext_loop_spec filename (String.length filename))
    as [He | (j & e & Hj & He & Hje & H1 & H2)];
    try (by rewrite drop_all).
  - rewrite He. split; [|by left].
    pose proof (TrimSuffix_drop (String.length filename) filename) as Ht.
    pose proof (take_drop (String.length filename) filename) as Htd.
    rewrite drop_all in Ht, Htd. by rewrite Ht.
  - rewrite He. split.
    + rewrite TrimSuffix_drop by lia. apply take_drop.
    + right. exists e. by rewrite Hje.
Qed.

(** ** Host options *)

Section HostFacts.

Variable L : Libp2p.
Variable E : HostErrors.
Variable unicode_lower : string -> string.

#[local] Abbreviation lower := (gostr.ToLower unicode_lower).
#[local] Abbreviation Opt := (lconfig_Option L).




Lemma muxer_loop_known rest (ts acc : list Opt) :
  Forall2 (fun opt t => length opt = 2%nat
                        /\ exists name, head opt = Some name
                                        /\ muxer_of L (lower name) = Some t) rest ts ->
  parseMuxerOptions_loop L E unicode_lower rest acc
  = Done (Some (ChainOptions L (acc ++ ts)), None).
Proof.
  intros H. revert acc.
  induction H as [|opt t rest ts (Hl & name & Hh & Hm) _ IH]; intros acc.
  - cbn [parseMuxerOptions_loop]. by rewrite app_nil_r.
  - cbn [parseMuxerOptions_loop]. unfold len, index. rewrite Hl.
    rewrite <- head_lookup, Hh. cbn [Z.of_nat Z.eqb negb mbind exec_bind].
    cbv zeta. unfold muxer_of in Hm.
    repeat case_bool_decide; simplify_eq; try congruence;
      rewrite IH, <- (assoc_L (++)); done.
Qed.

Lemma muxer_loop_no_panic rest (acc : list Opt) :
  exists res, parseMuxerOptions_loop L E unicode_lower rest acc = Done res.
Proof.
  revert acc. induction rest as [|opt rest IH]; intros acc;
    cbn [parseMuxerOptions_loop]; [eauto|].
  destruct (Z.eqb_spec (len opt) 2) as [Hl|_]; cbn [negb]; [|eauto].
  unfold index. destruct opt as [|name opt]; [by unfold len in Hl|].
  cbn [lookup list_lookup mbind exec_bind].
  cbv zeta. repeat case_bool_decide; eauto.
Qed.

Lemma muxer_loop_first rest rest' (acc : list Opt) :
  Forall2 (fun a b => length a = 2%nat /\ length b = 2%nat /\ head a = head b)
          rest rest' ->
  parseMuxerOptions_loop L E unicode_lower rest acc
  = parseMuxerOptions_loop L E unicode_lower rest' acc.
Proof.
  intros H. revert acc. induction H as [|a b rest rest' (Ha & Hb & Hh) _ IH]; intros acc.
  - done.
  - cbn [parseMuxerOptions_loop]. unfold len, index. rewrite Ha, Hb.
    rewrite <- !head_lookup, Hh. cbn [Z.of_nat Z.eqb negb].
    destruct (head b); cbn [mbind exec_bind]; [|done]. cbv zeta.
    repeat case_bool_decide; by rewrite ?IH.
Qed.

End HostFacts.


(** X13: [parseMuxerOptions] never panics; it gives one muxer for each
    pair, in order, when every option has two elements and a first
    element that is yamux or mplex in any case; and the second element
    of a pair is never read: two lists of pairs with the same first
    elements give the same result. *)
Theorem parseMuxerOptions_result
    (L : Libp2p) (E : HostErrors) (unicode_lower : string -> string)
    (opts : list (list string)) :
  (exists res, parseMuxerOptions L E unicode_lower opts = Done res)
  /\ (forall ts,
        Forall2 (fun opt t =>
                   length opt = 2%nat
                   /\ exists name, head opt = Some name
                        /\ muxer_of L (gostr.ToLower unicode_lower name) = Some t)
                opts ts ->
        parseMuxerOptions L E unicode_lower opts = Done (Some (ChainOptions L ts), None))
  /\ (forall opts',
        Forall2 (fun a b => length a = 2%nat /\ length b = 2%nat /\ head a = head b)
                opts opts' ->
        parseMuxerOptions L E unicode_lower opts
        = parseMuxerOptions L E unicode_lower opts').
Proof.
  unfold parseMuxerOptions. split_and!.
  - apply muxer_loop_no_panic.
  - intros ts H. by rewrite (muxer_loop_known _ _ _ _ ts).
  - intros opts' H. by apply muxer_loop_first.
Qed.

(** ** Lists of addresses *)

Section Addresses.

Lemma prefix_comma c s : String.prefix "," (String c s) = bool_decide (c = ","%char).
Proof.
  cbn [String.prefix]. destruct (Ascii.ascii_dec "," c) as [<-|Hne].
  - by destruct s.
  - symmetry. apply bool_decide_eq_false. congruence.
Qed.

Lemma has_byte_comma s : gostr.has_byte "," s = strings.Contains s ",".
Proof.
  induction s as [|c s IH]; [done|].
  rewrite Contains_comma_cons. cbn [gostr.has_byte]. by rewrite IH.
Qed.

Lemma split_length cur s :
  length (strings.split_from 0 cur s ",") = S (gostr.count_byte "," s).
Proof.
  revert cur. induction s as [|c s IH]; intros cur; [done|].
  cbn [strings.split_from gostr.count_byte]. rewrite prefix_comma.
  case_bool_decide; cbn [length String.length Nat.sub]; rewrite IH; done.
Qed.

Lemma isASCII_snoc cur c :
  gostr.isASCII (cur +:+ String c EmptyString)
  = gostr.isASCII cur && (strconv.byte_of c <? 128).
Proof.
  induction cur as [|a cur IH].
  - change (EmptyString +:+ String c EmptyString)%string with (String c EmptyString).
    cbn [gostr.isASCII]. by rewrite andb_true_r.
  - rewrite append_cons. cbn [gostr.isASCII]. by rewrite IH, andb_assoc.
Qed.

Lemma split_ascii cur s :
  gostr.isASCII cur = true -> gostr.isASCII s = true ->
  Forall (fun f => gostr.isASCII f = true) (strings.split_from 0 cur s ",").
Proof.
  revert cur. induction s as [|c s IH]; intros cur Hcur Hs;
    cbn [strings.split_from]; [by constructor|].
  cbn [gostr.isASCII] in Hs. apply andb_true_iff in Hs as [Hc Hs].
  destruct (String.prefix "," (String c s)).
  - constructor; [done|]. by apply IH.
  - apply IH; [|done]. by rewrite isASCII_snoc, Hcur, Hc.
Qed.

Lemma has_byte_take c j s :
  gostr.has_byte c s = false -> gostr.has_byte c (gostr.take j s) = false.
Proof.
  revert s. induction j as [|j IH]; intros [|a s]; cbn [gostr.take gostr.has_byte];
    try done.
  intros [? ?]%orb_false_iff. apply orb_false_iff. auto.
Qed.

Lemma first_byte_take j s :
  from_option gostr.asciiSpace false (gostr.first_byte s) = false ->
  from_option gostr.asciiSpace false (gostr.first_byte (gostr.take j s)) = false.
Proof. by destruct j, s. Qed.

Lemma last_byte_take j s c :
  String.get j s = Some c -> gostr.last_byte (gostr.take (S j) s) = Some c.
Proof.
  revert s. induction j as [|j IH]; intros [|a s]; cbn [String.get]; try done.
  intros H. specialize (IH _ H).
  change (gostr.take (S (S j)) (String a s)) with (String a (gostr.take (S j) s)).
  cbn [gostr.last_byte]. destruct (gostr.take (S j) s); done.
Qed.

Lemma isASCII_get j s c :
  gostr.isASCII s = true -> String.get j s = Some c -> strconv.byte_of c < 128.
Proof.
  revert s. induction j as [|j IH]; intros [|a s]; cbn [String.get gostr.isASCII];
    try done; intros [Ha Hs]%andb_true_iff.
  - intros [= <-]. by apply Z.ltb_lt.
  - by apply IH.
Qed.

(** The first loop on an ASCII string: what is left starts with no
    space. *)
Lemma trim_start_ascii s :
  gostr.isASCII s = true -> gostr.has_byte "," s = false ->
  exists t,
    gostr.trim_start s = inr t
    /\ gostr.isASCII t = true /\ gostr.has_byte "," t = false
    /\ from_option gostr.asciiSpace false (gostr.first_byte t) = false.
Proof.
  induction s as [|c s IH]; intros Ha Hc.
  - by exists EmptyString.
  - cbn [gostr.trim_start].
    pose proof Ha as Ha'. pose proof Hc as Hc'.
    cbn [gostr.isASCII] in Ha'. apply andb_true_iff in Ha' as [Hb Hs].
    cbn [gostr.has_byte] in Hc'. apply orb_false_iff in Hc' as [_ Hcs].
    apply Z.ltb_lt in Hb.
    destruct (Z.leb_spec 128 (strconv.byte_of c)); [lia|].
    destruct (gostr.asciiSpace c) eqn:Hsp; [by apply IH|].
    exists (String c s). split_and!; [done | done | done | exact Hsp].
Qed.

Lemma get_lt j s : (j < String.length s)%nat -> is_Some (String.get j s).
Proof.
  revert s. induction j as [|j IH]; intros [|a s]; cbn [String.get String.length];
    try lia; [eauto|].
  intros ?. apply IH. lia.
Qed.

(** The second loop on an ASCII string: what is kept ends with no
    space. *)
Lemma trim_stop_ascii trim_right t stop :
  gostr.isASCII t = true ->
  (stop <= String.length t)%nat ->
  exists j,
    gostr.trim_stop trim_right t stop = gostr.take j t
    /\ from_option gostr.asciiSpace false (gostr.last_byte (gostr.take j t)) = false.
Proof.
  intros Ha. induction stop as [|j IH]; intros Hstop; cbn [gostr.trim_stop].
  - exists 0%nat. by destruct t.
  - destruct (get_lt j t) as [c Hg]; [lia|]. rewrite Hg.
    pose proof (isASCII_get _ _ _ Ha Hg).
    destruct (Z.leb_spec 128 (strconv.byte_of c)); [lia|].
    destruct (gostr.asciiSpace c) eqn:Hsp; [apply IH; lia|].
    exists (S j). split; [done|]. by rewrite (last_byte_take _ _ _ Hg).
Qed.

Lemma TrimSpace_ascii trim_both trim_right s :
  gostr.isASCII s = true -> gostr.has_byte "," s = false ->
  trimmed (gostr.TrimSpace trim_both trim_right s).
Proof.
  intros Ha Hc. unfold gostr.TrimSpace.
  destruct (trim_start_ascii s Ha Hc) as (t & -> & Hta & Htc & Htf).
  destruct (trim_stop_ascii trim_right t (String.length t) Hta) as (j & -> & Hl);
    [done|].
  split_and!; [by apply has_byte_take | by apply first_byte_take | done].
Qed.

Lemma addresses_trimmed trim_both trim_right s :
  gostr.isASCII s = true ->
  length (gostr.TrimSpace trim_both trim_right <$> strings.Split s ",")
  = S (gostr.count_byte "," s)
  /\ Forall trimmed (gostr.TrimSpace trim_both trim_right <$> strings.Split s ",").
Proof.
  intros Ha. unfold strings.Split. case_decide; [done|]. split.
  - by rewrite length_fmap, split_length.
  - apply Forall_fmap.
    pose proof (split_ascii EmptyString s eq_refl Ha) as H1.
    pose proof (split_comma_free EmptyString s eq_refl) as H2.
    rewrite Forall_forall in H1, H2. apply Forall_forall. intros f Hf. simpl.
    apply TrimSpace_ascii; [by apply H1|]. rewrite has_byte_comma. by apply H2.
Qed.

End Addresses.

(** X14: for an ASCII string that is not empty, [parseListens] sets the
    listen addresses, and [parsePeers] the peers, to one entry for each
    comma-separated piece, one more than there are commas, each entry
    without a comma and without a space at either end; every other field
    of the configuration is left as it was, and the empty string changes
    nothing. *)
Theorem parseListens_parsePeers_trimmed {PrivKey : Type}
    (trim_both trim_right : string -> string) (conf : Config PrivKey) (s : string) :
  gostr.isASCII s = true ->
  (s = EmptyString ->
   parseListens trim_both trim_right conf s = conf
   /\ parsePeers trim_both trim_right conf s = conf)
  /\ (s <> EmptyString ->
      exists entries,
        length entries = S (gostr.count_byte "," s)
        /\ Forall trimmed entries
        /\ parseListens trim_both trim_right conf s = set_Listens PrivKey entries conf
        /\ parsePeers trim_both trim_right conf s = set_Peers PrivKey entries conf).
Proof.
  intros Ha. split.
  - intros ->. done.
  - intros Hne.
    destruct (addresses_trimmed trim_both trim_right s Ha) as [Hl Ht].
    eexists. split_and!; [exact Hl | exact Ht | |];
      unfold parseListens, parsePeers; by rewrite bool_decide_eq_false_2.
Qed.

Lemma parseListens_parsePeers_trimmed_witness :
  gostr.isASCII Sample.listens = true
  /\ exists entries,
       length entries = 3%nat
       /\ Forall trimmed entries
       /\ parseListens id id Sample.conf Sample.listens
          = set_Listens unit entries Sample.conf.
Proof.
  assert (Ha : gostr.isASCII Sample.listens = true) by (vm_compute; reflexivity).
  split; [exact Ha|].
  destruct (proj2 (parseListens_parsePeers_trimmed id id Sample.conf Sample.listens Ha))
    as (entries & Hl & Ht & Hp & _); [discriminate|].
  exists entries. split_and!; [exact Hl | exact Ht | exact Hp].
Defined.

(** ** The numbers of a record *)

Section Numbers.

Lemma int64_eq z : is_int64 z -> int64 z = z.
Proof.
  unfold int64, is_int64, MinInt64, MaxInt64. intros ?.
  rewrite Z.mod_small; lia.
Qed.

Lemma digit_of_digit c :
  is_digit c = true -> strconv.digit_of c = Some (strconv.byte_of c - 48).
Proof.
  unfold is_digit, strconv.digit_of. cbv zeta. intros ->. done.
Qed.

Lemma digit_of_other c d :
  is_digit c = false -> strconv.digit_of c = Some d -> 10 <= d.
Proof.
  unfold is_digit, strconv.digit_of. cbv zeta. intros ->.
  destruct (_ && _) eqn:Hl; [|done]. intros [= <-].
  apply andb_true_iff in Hl as [Hl _]. apply Z.leb_le in Hl. lia.
Qed.

Lemma is_digit_range c :
  is_digit c = true -> 0 <= strconv.byte_of c - 48 <= 9.
Proof. unfold is_digit. intros [?%Z.leb_le ?%Z.leb_le]%andb_true_iff. lia. Qed.

Lemma decimal_from_mono_nonneg n s :
  0 <= n -> all_digits s = true -> n <= decimal_from n s.
Proof.
  revert n. induction s as [|c s IH]; intros n Hn; cbn [all_digits decimal_from]; [lia|].
  intros [Hc Hs]%andb_true_iff. pose proof (is_digit_range c Hc).
  assert (0 <= 10 * n + (strconv.byte_of c - 48)) as H0 by lia.
  specialize (IH _ H0 Hs). lia.
Qed.

(** [ParseUint] reads the digits as a number and refuses what does not
    fit in 64 bits. *)
Lemma ParseUint_loop_exact s0 s n v :
  0 <= n <= MaxUint64 ->
  strconv.ParseUint_loop s0 s n = (v, None)
  <-> all_digits s = true /\ decimal_from n s <= MaxUint64 /\ v = decimal_from n s.
Proof.
  assert (Hcut : strconv.cutoff10 = 1844674407370955162) by reflexivity.
  revert n. induction s as [|c s IH]; intros n Hn;
    cbn [strconv.ParseUint_loop all_digits decimal_from].
  - split; [intros [= <-]; split_and!; [done | lia | done] | intros (_ & _ & ->); done].
  - destruct (is_digit c) eqn:Hc.
    + rewrite (digit_of_digit c Hc). pose proof (is_digit_range c Hc) as Hd.
      destruct (Z.leb_spec 10 (strconv.byte_of c - 48)); [lia|].
      rewrite Hcut. unfold MaxUint64 in *.
      destruct (Z.leb_spec 1844674407370955162 n).
      { split; [done|]. intros (Hs & Hle & _). exfalso.
        pose proof (decimal_from_mono_nonneg
                      (10 * n + (strconv.byte_of c - 48)) s ltac:(lia) Hs). lia. }
      rewrite (uint64_id (n * 10)) by (unfold MaxUint64; lia).
      destruct (Z_lt_le_dec (n * 10 + (strconv.byte_of c - 48)) (2 ^ 64)) as [Hfit|Hov].
      * rewrite (uint64_id (n * 10 + _)) by (unfold MaxUint64; lia).
        destruct (Z.ltb_spec (n * 10 + (strconv.byte_of c - 48)) (n * 10)); [lia|].
        destruct (Z.ltb_spec (2 ^ 64 - 1) (n * 10 + (strconv.byte_of c - 48))); [lia|].
        cbn [orb]. rewrite IH by lia.
        replace (10 * n) with (n * 10) by lia. tauto.
      * assert (uint64 (n * 10 + (strconv.byte_of c - 48))
                = n * 10 + (strconv.byte_of c - 48) - 2 ^ 64) as ->.
        { unfold uint64. symmetry. apply (Z.mod_unique _ _ 1); lia. }
        destruct (Z.ltb_spec (n * 10 + (strconv.byte_of c - 48) - 2 ^ 64) (n * 10));
          [|lia].
        cbn [orb]. split; [done|]. intros (Hs & Hle & _). exfalso.
        pose proof (decimal_from_mono_nonneg
                      (10 * n + (strconv.byte_of c - 48)) s ltac:(lia) Hs). lia.
    + cbn [andb]. split; [|by intros [? _]].
      destruct (strconv.digit_of c) as [d|] eqn:Hd; [|done].
      pose proof (digit_of_other c d Hc Hd).
      destruct (Z.leb_spec 10 d); [done | lia].
Qed.

Lemma ParseUint_exact s v :
  strconv.ParseUint s = (v, None)
  <-> unsigned_decimal s = Some v /\ v <= MaxUint64.
Proof.
  unfold strconv.ParseUint, unsigned_decimal. case_decide as He.
  - subst s. split; [done | by intros [? _]].
  - rewrite ParseUint_loop_exact by (unfold MaxUint64; lia).
    destruct s as [|c s]; [done|]. destruct (all_digits (String c s)).
    + split; [intros (_ & ? & ->); done | intros [[= <-] ?]; done].
    + split; [by intros [? _] | by intros [? _]].
Qed.

Lemma unsigned_decimal_nonneg s v : unsigned_decimal s = Some v -> 0 <= v.
Proof.
  unfold unsigned_decimal. destruct s as [|c s]; [done|].
  destruct (all_digits (String c s)) eqn:Hd; [|done]. intros [= <-].
  apply (decimal_from_mono_nonneg 0 (String c s)); [lia | done].
Qed.

Lemma ParseUint_error s v e :
  strconv.ParseUint s = (v, Some e) ->
  forall w, unsigned_decimal s = Some w -> MaxUint64 < w.
Proof.
  intros Hp w Hw. destruct (Z_lt_le_dec MaxUint64 w) as [?|Hle]; [done|].
  pose proof (proj2 (ParseUint_exact s w) (conj Hw Hle)). congruence.
Qed.

Lemma ParseInt_exact s v :
  strconv.ParseInt s = (v, None) <-> signed_decimal s = Some v /\ is_int64 v.
Proof.
  unfold strconv.ParseInt, signed_decimal. destruct s as [|c rest].
  { split; [done | by intros [? _]]. }
  assert (Hgen : forall (neg : bool) digits,
    (let '(un, err) := strconv.ParseUint digits in
     match err with
     | Some (NumError _ _ ErrSyntax) => (0, Some (strconv.syntaxError strconv.fnParseInt (String c rest)))
     | Some (NumError _ _ ErrRange) =>
         if neg then (MinInt64, Some (strconv.rangeError strconv.fnParseInt (String c rest)))
         else (MaxInt64, Some (strconv.rangeError strconv.fnParseInt (String c rest)))
     | Some e => (0, Some e)
     | None =>
         if negb neg && (2 ^ 63 <=? un)
         then (MaxInt64, Some (strconv.rangeError strconv.fnParseInt (String c rest)))
         else if neg && (2 ^ 63 <? un)
         then (MinInt64, Some (strconv.rangeError strconv.fnParseInt (String c rest)))
         else (if neg then int64 (- int64 un) else int64 un, None)
     end) = (v, None)
    <-> (if neg then Z.opp <$> unsigned_decimal digits else unsigned_decimal digits)
        = Some v /\ is_int64 v).
  { intros neg digits.
    destruct (strconv.ParseUint digits) as [un [e|]] eqn:Hp.
    - pose proof (ParseUint_error _ _ _ Hp) as Hbig.
      split.
      + destruct e as [|? ? []|]; destruct neg; done.
      + intros [Hv Hi]. exfalso. unfold is_int64, MinInt64, MaxInt64, MaxUint64 in *.
        destruct neg.
        * destruct (unsigned_decimal digits) as [w|] eqn:Hw; [|done].
          injection Hv as <-. specialize (Hbig w eq_refl). lia.
        * specialize (Hbig v Hv). lia.
    - apply ParseUint_exact in Hp as [Hu Hle].
      pose proof (unsigned_decimal_nonneg _ _ Hu) as H0. rewrite Hu.
      unfold is_int64, MinInt64, MaxInt64, MaxUint64, int64 in *.
      destruct neg; cbn [negb andb fmap option_fmap option_map].
      + destruct (Z.ltb_spec (2 ^ 63) un).
        * split; [done|]. intros [[= <-] ?]. lia.
        * assert (((un + 2 ^ 63) mod 2 ^ 64 - 2 ^ 63) = un \/ un = 2 ^ 63) as [Hi | ->].
          { destruct (decide (un = 2 ^ 63)); [by right | left].
            rewrite Z.mod_small; lia. }
          -- rewrite Hi.
             assert ((- un + 2 ^ 63) mod 2 ^ 64 - 2 ^ 63 = - un) as ->
               by (rewrite Z.mod_small; lia).
             split; [intros [= <-]; split; [done | lia] | intros [[= <-] _]; done].
          -- assert (((2 ^ 63 + 2 ^ 63) mod 2 ^ 64 - 2 ^ 63) = - 2 ^ 63) as ->
               by reflexivity.
             assert ((- - 2 ^ 63 + 2 ^ 63) mod 2 ^ 64 - 2 ^ 63 = - 2 ^ 63) as ->
               by reflexivity.
             split; [intros [= <-]; split; [done | lia] | intros [[= <-] _]; done].
      + destruct (Z.leb_spec (2 ^ 63) un).
        * split; [done|]. intros [[= <-] ?]. lia.
        * rewrite Z.mod_small by lia.
          replace (un + 2 ^ 63 - 2 ^ 63) with un by lia.
          split; [intros [= <-]; split; [done | lia] | intros [[= <-] _]; done]. }
  case_decide as Hplus.
  - rewrite bool_decide_eq_true_2 by done. apply (Hgen false rest).
  - rewrite (bool_decide_eq_false_2 _ Hplus). case_decide as Hminus.
    + rewrite bool_decide_eq_true_2 by done. apply (Hgen true rest).
    + rewrite (bool_decide_eq_false_2 _ Hminus). apply (Hgen false (String c rest)).
Qed.

Lemma byte_of_range c : 0 <= strconv.byte_of c < 256.
Proof.
  unfold strconv.byte_of. pose proof (N_ascii_bounded c). lia.
Qed.

Lemma Atoi_loop_other s0 s n :
  all_digits s = false -> strconv.Atoi_loop s0 s n = None.
Proof.
  revert n. induction s as [|c s IH]; intros n; cbn [all_digits strconv.Atoi_loop];
    [done|].
  destruct (is_digit c) eqn:Hc; cbn [andb].
  - intros Hs. pose proof (is_digit_range c Hc).
    rewrite Z.mod_small by lia.
    destruct (Z.ltb_spec 9 (strconv.byte_of c - 48)); [done|]. by apply IH.
  - intros _. pose proof (byte_of_range c) as Hb.
    unfold is_digit in Hc. apply andb_false_iff in Hc.
    assert (9 < (strconv.byte_of c - 48) mod 256) as Hch.
    { destruct (Z_lt_le_dec (strconv.byte_of c) 48).
      - assert ((strconv.byte_of c - 48) mod 256 = strconv.byte_of c + 208) as ->
          by (symmetry; apply (Z.mod_unique _ _ (-1)); lia).
        lia.
      - rewrite Z.mod_small by lia.
        destruct Hc as [Hc|Hc]; [apply Z.leb_gt in Hc | apply Z.leb_gt in Hc]; lia. }
    destruct (Z.ltb_spec 9 ((strconv.byte_of c - 48) mod 256)); [done | lia].
Qed.

Lemma Atoi_loop_digits s0 s n :
  0 <= n -> (n + 1) * 10 ^ Z.of_nat (String.length s) <= 2 ^ 63 ->
  all_digits s = true ->
  strconv.Atoi_loop s0 s n = Some (decimal_from n s).
Proof.
  revert n. induction s as [|c s IH]; intros n Hn Hb;
    cbn [all_digits strconv.Atoi_loop decimal_from String.length]; [done|].
  intros [Hc Hs]%andb_true_iff. pose proof (is_digit_range c Hc) as Hd.
  rewrite Z.mod_small by lia.
  destruct (Z.ltb_spec 9 (strconv.byte_of c - 48)); [lia|].
  cbn [String.length] in Hb. rewrite Nat2Z.inj_succ, Z.pow_succ_r in Hb by lia.
  assert (1 <= 10 ^ Z.of_nat (String.length s)) as Hp
    by (pose proof (Z.pow_pos_nonneg 10 (Z.of_nat (String.length s))); lia).
  assert (n * 10 + 10 <= 2 ^ 63) as Hfit by nia.
  rewrite (int64_eq (n * 10)) by (unfold is_int64, MinInt64, MaxInt64; lia).
  rewrite (int64_eq (n * 10 + _)) by (unfold is_int64, MinInt64, MaxInt64; lia).
  replace (n * 10) with (10 * n) by lia.
  apply IH; [lia | nia | done].
Qed.

Lemma decimal_from_bound n s :
  0 <= n -> all_digits s = true ->
  (n + 1) * 10 ^ Z.of_nat (String.length s) <= 2 ^ 63 ->
  0 <= decimal_from n s < 2 ^ 63.
Proof.
  revert n. induction s as [|c s IH]; intros n Hn Ha Hp;
    cbn [decimal_from String.length all_digits] in *.
  { rewrite Z.pow_0_r in Hp. lia. }
  apply andb_true_iff in Ha as [Hc Hs].
  pose proof (is_digit_range c Hc).
  rewrite Nat2Z.inj_succ, Z.pow_succ_r in Hp by lia.
  assert (1 <= 10 ^ Z.of_nat (String.length s))
    by (pose proof (Z.pow_pos_nonneg 10 (Z.of_nat (String.length s))); lia).
  apply IH; [lia | done | nia].
Qed.

Lemma pow10_18 k : (k <= 18)%nat -> 10 ^ Z.of_nat k <= 2 ^ 63.
Proof.
  intros Hk. transitivity (10 ^ 18); [|done].
  apply Z.pow_le_mono_r; lia.
Qed.

Lemma Atoi_exact s v :
  strconv.Atoi s = (v, None) <-> signed_decimal s = Some v /\ is_int64 v.
Proof.
  unfold strconv.Atoi. cbv zeta.
  destruct ((0 <? Z.of_nat (String.length s)) && (Z.of_nat (String.length s) <? 19))
    eqn:Hfast.
  - apply andb_true_iff in Hfast as [_ Hlen%Z.ltb_lt].
    destruct s as [|c rest]; [split; [done | by intros [? _]]|].
    cbn [String.length] in Hlen. unfold signed_decimal.
    assert (Hloop : forall digits,
              (String.length digits <= 18)%nat -> digits <> EmptyString ->
              strconv.Atoi_loop (String c rest) digits 0
              = unsigned_decimal digits
              /\ forall n, unsigned_decimal digits = Some n -> 0 <= n < 2 ^ 63).
    { intros digits Hd Hne. unfold unsigned_decimal.
      destruct digits as [|d ds]; [done|].
      destruct (all_digits (String d ds)) eqn:Ha.
      - pose proof (pow10_18 _ Hd) as Hp.
        pose proof (decimal_from_bound 0 (String d ds) ltac:(lia) Ha ltac:(lia)) as Hb.
        rewrite Atoi_loop_digits; [|lia|lia|done]. split; [done|].
        intros n [= <-]. exact Hb.
      - rewrite Atoi_loop_other by done. split; [done | done]. }
    assert (Hneg : forall n, 0 <= n < 2 ^ 63 -> int64 (- n) = - n).
    { intros n Hn. apply int64_eq. unfold is_int64, MinInt64, MaxInt64. lia. }
    assert (Hi : forall n, 0 <= n < 2 ^ 63 -> is_int64 n /\ is_int64 (- n)).
    { intros n Hn. unfold is_int64, MinInt64, MaxInt64. lia. }
    destruct (decide (c = "-"%char)) as [->|Hm].
    + cbn [bool_decide decide_rel orb andb]. rewrite (bool_decide_eq_false_2 ("-"%char = "+"%char)) by done.
      rewrite (bool_decide_eq_true_2 ("-"%char = "-"%char)) by done. cbn [orb andb].
      destruct rest as [|d ds].
      { cbn. split; [done | by intros [? _]]. }
      destruct (Z.ltb_spec (Z.of_nat (String.length (String d ds))) 1) as [Hl|_];
        [cbn [String.length] in Hl; lia|].
      destruct (Hloop (String d ds)) as [-> Hr]; [cbn [String.length] in *; lia | done|].
      destruct (unsigned_decimal (String d ds)) as [n|]; [|split; [done | by intros [? _]]].
      specialize (Hr n eq_refl). rewrite (Hneg n Hr). cbn [fmap option_fmap option_map].
      split; [intros [= <-]; split; [done | by apply Hi] | intros [[= <-] _]; done].
    + rewrite (bool_decide_eq_false_2 (c = "-"%char)) by done. cbn [orb].
      destruct (decide (c = "+"%char)) as [->|Hp].
      * rewrite (bool_decide_eq_true_2 ("+"%char = "+"%char)) by done. cbn [andb].
        destruct rest as [|d ds].
        { cbn. split; [done | by intros [? _]]. }
        destruct (Z.ltb_spec (Z.of_nat (String.length (String d ds))) 1) as [Hl|_];
          [cbn [String.length] in Hl; lia|].
        destruct (Hloop (String d ds)) as [-> Hr]; [cbn [String.length] in *; lia | done|].
        destruct (unsigned_decimal (String d ds)) as [n|]; [|split; [done | by intros [? _]]].
        specialize (Hr n eq_refl).
        split; [intros [= <-]; split; [done | by apply Hi] | intros [[= <-] _]; done].
      * rewrite (bool_decide_eq_false_2 (c = "+"%char)) by done. cbn [andb].
        destruct (Hloop (String c rest)) as [-> Hr]; [cbn [String.length] in *; lia | done|].
        destruct (unsigned_decimal (String c rest)) as [n|]; [|split; [done | by intros [? _]]].
        specialize (Hr n eq_refl).
        split; [intros [= <-]; split; [done | by apply Hi] | intros [[= <-] _]; done].
  - rewrite <- ParseInt_exact.
    destruct (strconv.ParseInt s) as [i64 [e|]]; [|done].
    split; [by destruct e | done].
Qed.

End Numbers.

(** X15: on a line that holds the marker and splits into six fields, the
    parser returns the record [r] exactly when the first three fields
    are the three identifiers of [r], the fourth writes its seqNo in
    decimal digits, at most 2^64 - 1, and the fifth and the sixth write
    its nanoTime and its seq as decimal digits after an optional sign,
    within 64 bits. *)
Theorem parseLogLine_numbers (LogLineLeader logLine : string) (data : list string)
    (r : MessageLog) :
  strings.Contains logLine LogLineLeader = true ->
  data = strings.Split (strings.ReplaceAll logLine LogLineLeader EmptyString) "," ->
  length data = 6%nat ->
  parseLogLine LogLineLeader logLine = Done (Some r, None)
  <-> (HostID r = field data 0 /\ SenderID r = field data 1
       /\ MessageID r = field data 2
       /\ unsigned_decimal (field data 3) = Some (SeqNo r) /\ SeqNo r <= MaxUint64
       /\ signed_decimal (field data 4) = Some (NanoTime r) /\ is_int64 (NanoTime r)
       /\ signed_decimal (field data 5) = Some (Seq r) /\ is_int64 (Seq r)).
Proof.
  intros Hc -> Hl. rewrite (parseLogLine_relevant _ _ Hc). cbv zeta.
  set (data := strings.Split _ _) in *.
  rewrite decide_True by done.
  rewrite (buildMessageLogFromStrings_spec data Hl).
  pose proof (ParseUint_exact (field data 3)) as H3.
  pose proof (ParseInt_exact (field data 4)) as H4.
  pose proof (Atoi_exact (field data 5)) as H5.
  destruct (strconv.ParseUint (field data 3)) as [seqNo [e3|]].
  { cbn [snd]. split; [done|]. intros (_ & _ & _ & Hu & Hle & _).
    discriminate (proj2 (H3 (SeqNo r)) (conj Hu Hle)). }
  destruct (strconv.ParseInt (field data 4)) as [unixNano [e4|]].
  { cbn [snd]. split; [done|]. intros (_ & _ & _ & _ & _ & Hs & Hi & _).
    discriminate (proj2 (H4 (NanoTime r)) (conj Hs Hi)). }
  destruct (strconv.Atoi (field data 5)) as [seq [e5|]].
  { cbn [snd]. split; [done|]. intros (_ & _ & _ & _ & _ & _ & _ & Hs & Hi).
    discriminate (proj2 (H5 (Seq r)) (conj Hs Hi)). }
  cbn [fst snd].
  destruct (proj1 (H3 seqNo) eq_refl) as [Hu3 Hle3].
  destruct (proj1 (H4 unixNano) eq_refl) as [Hs4 Hi4].
  destruct (proj1 (H5 seq) eq_refl) as [Hs5 Hi5].
  split.
  - intros [= <-]. cbn [HostID SenderID MessageID SeqNo NanoTime Seq]. done.
  - intros (Hh & Hs & Hm & Hu & _ & Hn & _ & Hq & _).
    destruct r as [h s m q n sq]. cbn [HostID SenderID MessageID SeqNo NanoTime Seq] in *.
    do 2 f_equal. congruence.
Qed.

Lemma parseLogLine_numbers_witness :
  parseLogLine "MARKER" Sample.line = Done (Some Sample.record, None).
Proof.
  apply (parseLogLine_numbers "MARKER" Sample.line
           (strings.Split (strings.ReplaceAll Sample.line "MARKER" EmptyString) ",")
           Sample.record).
  - vm_compute. reflexivity.
  - reflexivity.
  - vm_compute. reflexivity.
  - unfold is_int64, MinInt64, MaxInt64, MaxUint64.
    split_and!; try (vm_compute; reflexivity); cbn; lia.
Defined.

(** ** Names of options in any case *)

Section Case.

Lemma lower_byte_ascii c :
  (strconv.byte_of (gostr.lower_byte c) <? 128) = (strconv.byte_of c <? 128).
Proof. destruct c as [[] [] [] [] [] [] [] []]; reflexivity. Qed.

Lemma lower_byte_idem c : gostr.lower_byte (gostr.lower_byte c) = gostr.lower_byte c.
Proof. destruct c as [[] [] [] [] [] [] [] []]; reflexivity. Qed.

Lemma lower_bytes_ascii s : gostr.isASCII (gostr.lower_bytes s) = gostr.isASCII s.
Proof.
  induction s as [|c s IH]; [done|].
  cbn [gostr.lower_bytes gostr.isASCII]. by rewrite lower_byte_ascii, IH.
Qed.

Lemma lower_bytes_idem s : gostr.lower_bytes (gostr.lower_bytes s) = gostr.lower_bytes s.
Proof.
  induction s as [|c s IH]; [done|].
  cbn [gostr.lower_bytes]. by rewrite lower_byte_idem, IH.
Qed.

(** On an ASCII string [ToLower] is idempotent. *)
Lemma ToLower_idem unicode_lower s :
  gostr.isASCII s = true ->
  gostr.ToLower unicode_lower (gostr.ToLower unicode_lower s)
  = gostr.ToLower unicode_lower s.
Proof.
  intros Ha. unfold gostr.ToLower. rewrite Ha, lower_bytes_ascii, Ha.
  apply lower_bytes_idem.
Qed.

Variable L : Libp2p.
Variable E : HostErrors.
Variable unicode_lower : string -> string.

Lemma transport_loop_len opts opts' rest (acc : list (lconfig_Option L)) :
  length opts = length opts' ->
  parseTransportOptions_loop L E unicode_lower opts rest acc
  = parseTransportOptions_loop L E unicode_lower opts' rest acc.
Proof.
  intros Hl. revert acc. induction rest as [|o rest IH]; intros acc; [done|].
  cbn [parseTransportOptions_loop]. cbv zeta. unfold len. rewrite Hl.
  by rewrite !IH.
Qed.

Lemma transport_loop_lower opts rest (acc : list (lconfig_Option L)) :
  Forall (fun o => gostr.isASCII o = true) rest ->
  parseTransportOptions_loop L E unicode_lower opts
    (gostr.ToLower unicode_lower <$> rest) acc
  = parseTransportOptions_loop L E unicode_lower opts rest acc.
Proof.
  intros H. revert acc. induction H as [|o rest Ha _ IH]; intros acc; [done|].
  rewrite fmap_cons. cbn [parseTransportOptions_loop]. cbv zeta.
  rewrite (ToLower_idem _ _ Ha). by rewrite !IH.
Qed.

Lemma muxer_loop_lower rest (acc : list (lconfig_Option L)) :
  Forall (Forall (fun o => gostr.isASCII o = true)) rest ->
  parseMuxerOptions_loop L E unicode_lower
    ((fun opt : list string => gostr.ToLower unicode_lower <$> opt) <$> rest) acc
  = parseMuxerOptions_loop L E unicode_lower rest acc.
Proof.
  intros H. revert acc. induction H as [|opt rest Ha _ IH]; intros acc; [done|].
  rewrite fmap_cons. cbn [parseMuxerOptions_loop].
  unfold len. rewrite length_fmap. destruct (negb _); [done|].
  unfold index. rewrite list_lookup_fmap.
  destruct opt as [|name opt]; [done|]. cbn [lookup list_lookup fmap option_fmap option_map mbind exec_bind].
  cbv zeta. apply Forall_cons in Ha as [Hn _].
  rewrite (ToLower_idem _ _ Hn). by rewrite !IH.
Qed.

End Case.

(** X16: the names of options are read without regard to case: on
    ASCII names the three option parsers return for the names what they
    return for the names in lower case. *)
Theorem option_names_any_case
    (L : Libp2p) (E : HostErrors) (unicode_lower : string -> string)
    (transports : list string) (muxers : list (list string)) (security : string) :
  Forall (fun o => gostr.isASCII o = true) transports ->
  Forall (Forall (fun o => gostr.isASCII o = true)) muxers ->
  gostr.isASCII security = true ->
  parseTransportOptions L E unicode_lower (gostr.ToLower unicode_lower <$> transports)
  = parseTransportOptions L E unicode_lower transports
  /\ parseMuxerOptions L E unicode_lower ((fun opt : list string => gostr.ToLower unicode_lower <$> opt) <$> muxers)
     = parseMuxerOptions L E unicode_lower muxers
  /\ parseSecurityOptions L E unicode_lower (gostr.ToLower unicode_lower security)
     = parseSecurityOptions L E unicode_lower security.
Proof.
  intros Ht Hm Hs. split_and!.
  - unfold parseTransportOptions.
    rewrite (transport_loop_len L E unicode_lower _ transports)
      by apply length_fmap.
    by apply transport_loop_lower.
  - by apply muxer_loop_lower.
  - unfold parseSecurityOptions. cbv zeta. by rewrite (ToLower_idem _ _ Hs).
Qed.

Lemma option_names_any_case_witness :
  parseTransportOptions Sample.libp2p Sample.errors id
    (gostr.ToLower id <$> ["TCP"; "Ws"]%string)
  = parseTransportOptions Sample.libp2p Sample.errors id ["TCP"; "Ws"]%string.
Proof.
  refine (proj1 (option_names_any_case Sample.libp2p Sample.errors id
                   ["TCP"; "Ws"]%string [] EmptyString _ _ _)).
  - repeat constructor.
  - constructor.
  - reflexivity.
Defined.

(** X17: [calcRMR] does not depend on the order of the records: two
    groups with the same records in different orders get the same
    redundancy and the same error. *)
Theorem calcRMR_order (g g' : list MessageLog) :
  g ≡ₚ g' -> calcRMR g = calcRMR g'.
Proof.
  intros Hp. unfold calcRMR, countUniqueHosts, len.
  assert (foldl host_step ∅ g = foldl host_step ∅ g') as ->.
  { apply set_eq. intros x. rewrite !host_set_elem.
    split; intros (r & Hr & Hx); exists r; (split; [|done]).
    - by rewrite <- Hp.
    - by rewrite Hp. }
  by rewrite (Permutation_length Hp).
Qed.

Lemma calcRMR_order_witness :
  calcRMR Run.four = calcRMR (sorter.Sort unixNanoTimestamp Run.four).
Proof.
  apply calcRMR_order. symmetry. apply Sort_perm.
Defined.
